(** * Santa's Little Helper: the top-level component [App] (src/App.tsx)

    A shallow embedding of the state the component owns (its [useState]
    cells, the browser's local storage, the source download action) and of
    its handlers: the mount effect, [saveApiKey], [handleScan],
    [handleExportClick], [handleUnlockSleigh] and [isProcessing].

    [handleScan] is an [async] function: it is embedded as a program in a
    small free monad whose instructions are the state updates it performs
    and the service calls it awaits, with JavaScript's [try]/[catch]. *)

From Stdlib Require Import List NArith Bool String Ascii Lia.
From ExtLib Require Import Structures.Monad Structures.MonadExc.
Import ListNotations.
Import MonadNotation.
Local Open Scope monad_scope.
Local Open Scope N_scope.

(** ** JavaScript strings *)

(** A string is the sequence of its Unicode code points (a surrogate pair
    counts as one element; two strings are [===] exactly when their
    sequences are equal). *)
Definition jsstring : Type := list N.

(** An ASCII literal of the source. *)
Definition lit (s : string) : jsstring :=
  map N_of_ascii (list_ascii_of_string s).

(** [a === b] on strings. *)
Fixpoint jsstring_eqb (a b : jsstring) : bool :=
  match a, b with
  | [], [] => true
  | x :: a', y :: b' => (x =? y) && jsstring_eqb a' b'
  | _, _ => false
  end.

Infix "===" := jsstring_eqb (at level 70, no associativity).

(** Truthiness of a string: only the empty string is falsy. *)
Definition truthy (s : jsstring) : bool :=
  match s with [] => false | _ :: _ => true end.

(** Truthiness of [string | null] and [string | undefined]. *)
Definition truthy_opt (v : option jsstring) : bool :=
  match v with Some s => truthy s | None => false end.

(** [v || d] for an optional string [v] and a string [d]. *)
Definition or_else (v : option jsstring) (d : jsstring) : jsstring :=
  match v with
  | Some s => if truthy s then s else d
  | None => d
  end.

(** ECMAScript's WhiteSpace and LineTerminator code points, the ones
    [String.prototype.trim] strips: TAB, LF, VT, FF, CR, SP, NBSP, the
    Unicode space separators, LS, PS and the byte order mark. *)
Definition isWhiteSpace (c : N) : bool :=
  ((9 <=? c) && (c <=? 13))
  || (c =? 32) || (c =? 160) || (c =? 5760)
  || ((8192 <=? c) && (c <=? 8202))
  || (c =? 8232) || (c =? 8233) || (c =? 8239) || (c =? 8287)
  || (c =? 12288) || (c =? 65279).

Fixpoint trimStart (s : jsstring) : jsstring :=
  match s with
  | [] => []
  | c :: s' => if isWhiteSpace c then trimStart s' else s
  end.

Definition trimEnd (s : jsstring) : jsstring := rev (trimStart (rev s)).

Definition trim (s : jsstring) : jsstring := trimEnd (trimStart s).

(** [String.prototype.toUpperCase] maps every code point through the
    Unicode case tables, independently of its neighbours.  On the ASCII
    block the table is: a-z to A-Z, everything else unchanged.  The table
    of the other code points belongs to the JavaScript runtime and is the
    parameter [unicode_upper]. *)
Definition upper_code_point (unicode_upper : N -> list N) (c : N) : list N :=
  if c <? 128
  then [if (97 <=? c) && (c <=? 122) then c - 32 else c]
  else unicode_upper c.

Definition toUpperCase (unicode_upper : N -> list N) (s : jsstring) : jsstring :=
  flat_map (upper_code_point unicode_upper) s.

(** ** Data model (types.ts is read through its uses in App.tsx) *)

(** The [status] field of [AppState]. *)
Module Status.

Inductive t : Type :=
| idle | fetching_data | judging | generating_image | complete | error.

(** [a === b] on statuses. *)
Definition eqb (a b : t) : bool :=
  match a, b with
  | idle, idle | fetching_data, fetching_data | judging, judging
  | generating_image, generating_image | complete, complete
  | error, error => true
  | _, _ => false
  end.

End Status.

(** Modelled from the spec: types.ts, which declares [Verdict], [AppState]
    and [ScanInput], is not among the sources.  A verdict "contains at
    minimum a textual verdict and a visual_prompt string"; App.tsx reads
    only [visual_prompt], and the rest is carried along unread as
    [verdict_fields]. *)
Record Verdict : Type := mkVerdict {
  visual_prompt : jsstring;
  verdict_fields : jsstring
}.

(** The four fields are those of the initial value given to [useState]. *)
Record AppState : Type := mkAppState {
  status : Status.t;
  error : option jsstring;
  verdict : option Verdict;
  generatedImage : option jsstring
}.

(** [input.type] is kept as the string it is at run time, so that a value
    outside the four known ones can be submitted. *)
Record ScanInput : Type := mkScanInput {
  type : jsstring;
  content : jsstring
}.

(** Local storage: the pairs set so far, the latest first. *)
Definition Storage : Type := list (jsstring * jsstring).

Fixpoint getItem (st : Storage) (k : jsstring) : option jsstring :=
  match st with
  | [] => None
  | (k', v) :: st' => if k' === k then Some v else getItem st' k
  end.

Definition setItem (st : Storage) (k v : jsstring) : Storage :=
  (k, v) :: filter (fun kv => negb (fst kv === k)) st.

(** Everything the component reads or writes: its seven [useState] cells,
    local storage, and the number of times [downloadRepo] was called. *)
Record World : Type := mkWorld {
  state : AppState;
  apiKey : jsstring;
  showKeyModal : bool;
  tempKey : jsstring;
  showExportModal : bool;
  exportPassword : jsstring;
  passwordError : bool;
  localStorage : Storage;
  downloadRepo_calls : nat
}.

Definition initialState : AppState :=
  {| status := Status.idle; error := None; verdict := None;
     generatedImage := None |}.

(** The component before its mount effect has run. *)
Definition initialWorld (stored : Storage) : World :=
  {| state := initialState; apiKey := []; showKeyModal := false;
     tempKey := []; showExportModal := false; exportPassword := [];
     passwordError := false; localStorage := stored;
     downloadRepo_calls := 0 |}.

(** The [useState] setters. *)
Definition setState (f : AppState -> AppState) (w : World) : World :=
  mkWorld (f (state w)) (apiKey w) (showKeyModal w) (tempKey w)
    (showExportModal w) (exportPassword w) (passwordError w)
    (localStorage w) (downloadRepo_calls w).

Definition setApiKey (k : jsstring) (w : World) : World :=
  mkWorld (state w) k (showKeyModal w) (tempKey w)
    (showExportModal w) (exportPassword w) (passwordError w)
    (localStorage w) (downloadRepo_calls w).

Definition setShowKeyModal (b : bool) (w : World) : World :=
  mkWorld (state w) (apiKey w) b (tempKey w)
    (showExportModal w) (exportPassword w) (passwordError w)
    (localStorage w) (downloadRepo_calls w).

Definition setTempKey (k : jsstring) (w : World) : World :=
  mkWorld (state w) (apiKey w) (showKeyModal w) k
    (showExportModal w) (exportPassword w) (passwordError w)
    (localStorage w) (downloadRepo_calls w).

Definition setShowExportModal (b : bool) (w : World) : World :=
  mkWorld (state w) (apiKey w) (showKeyModal w) (tempKey w)
    b (exportPassword w) (passwordError w)
    (localStorage w) (downloadRepo_calls w).

Definition setExportPassword (p : jsstring) (w : World) : World :=
  mkWorld (state w) (apiKey w) (showKeyModal w) (tempKey w)
    (showExportModal w) p (passwordError w)
    (localStorage w) (downloadRepo_calls w).

Definition setPasswordError (b : bool) (w : World) : World :=
  mkWorld (state w) (apiKey w) (showKeyModal w) (tempKey w)
    (showExportModal w) (exportPassword w) b
    (localStorage w) (downloadRepo_calls w).

Definition localStorage_setItem (k v : jsstring) (w : World) : World :=
  mkWorld (state w) (apiKey w) (showKeyModal w) (tempKey w)
    (showExportModal w) (exportPassword w) (passwordError w)
    (setItem (localStorage w) k v) (downloadRepo_calls w).

Definition downloadRepo (w : World) : World :=
  mkWorld (state w) (apiKey w) (showKeyModal w) (tempKey w)
    (showExportModal w) (exportPassword w) (passwordError w)
    (localStorage w) (S (downloadRepo_calls w)).

(** ** The synchronous handlers *)

Definition GEMINI_API_KEY : jsstring := lit "GEMINI_API_KEY".

(** The mount effect; [envKey] is [process.env.API_KEY], fixed at build
    time. *)
Definition initializeKey (envKey : option jsstring) (w : World) : World :=
  let storedKey := getItem (localStorage w) GEMINI_API_KEY in
  let otherwise :=
    match envKey with
    | Some k => if truthy k then setApiKey k w else w
    | None => w
    end in
  match storedKey with
  | Some k => if truthy k then setApiKey k w else otherwise
  | None => otherwise
  end.

Definition saveApiKey (w : World) : World :=
  if truthy (trim (tempKey w)) then
    let key := trim (tempKey w) in
    setShowKeyModal false
      (setApiKey key (localStorage_setItem GEMINI_API_KEY key w))
  else w.

Definition handleExportClick (w : World) : World :=
  setPasswordError false (setExportPassword [] (setShowExportModal true w)).

Definition handleUnlockSleigh (unicode_upper : N -> list N) (w : World) : World :=
  if toUpperCase unicode_upper (exportPassword w) === lit "HOHOHO"
  then setShowExportModal false (downloadRepo w)
  else setPasswordError true w.

Definition isProcessing (s : AppState) : bool :=
  Status.eqb (status s) Status.fetching_data
  || Status.eqb (status s) Status.judging
  || Status.eqb (status s) Status.generating_image.

(** ** Asynchronous code *)

(** What a service rejects with and [catch (err: any)] binds: null or
    undefined, or a value with properties (an Error object as a rule), of
    which the handler reads [message] only; that property may be missing
    ([None]) or the empty string. *)
Inductive Error : Type :=
| NullOrUndefined
| mkError (message : option jsstring).

(** [err.message]: a TypeError ([None]) on null and undefined, the
    property otherwise. *)
Definition read_message (err : Error) : option (option jsstring) :=
  match err with
  | NullOrUndefined => None
  | mkError message => Some message
  end.

(** The six services imported by App.tsx, with their arguments. *)
Inductive call : Type :=
| fetchWikiContent (title : jsstring)
| fetchGithubActivity (username : jsstring)
| fetchRedditActivity (username key : jsstring)
| performDeepResearch (topic key : jsstring)
| judgeInput (text key : jsstring)
| generateToyOrCoal (prompt key : jsstring).

(** The type a service's promise resolves to. *)
Definition resp (c : call) : Type :=
  match c with
  | judgeInput _ _ => Verdict
  | _ => jsstring
  end.

(** A settled promise. *)
Inductive outcome (A : Type) : Type :=
| Fulfilled (a : A)
| Rejected (err : Error).
Arguments Fulfilled {A} a.
Arguments Rejected {A} err.

(** Programs: return, throw, apply a state update, hand [setState] an
    updater that may throw when React runs it ([None]), or suspend on a
    service call and go on with the way its promise settles. *)
Inductive prog (A : Type) : Type :=
| Return (a : A)
| Throw (err : Error)
| Update (f : World -> World) (k : prog A)
| TryUpdate (f : AppState -> option AppState) (k : prog A)
| Await (c : call) (k : outcome (resp c) -> prog A).
Arguments Return {A} a.
Arguments Throw {A} err.
Arguments Update {A} f k.
Arguments TryUpdate {A} f k.
Arguments Await {A} c k.

Fixpoint prog_bind {A B : Type} (p : prog A) (g : A -> prog B) : prog B :=
  match p with
  | Return a => g a
  | Throw e => Throw e
  | Update f k => Update f (prog_bind k g)
  | TryUpdate f k => TryUpdate f (prog_bind k g)
  | Await c k => Await c (fun o => prog_bind (k o) g)
  end.

(** [try { p } catch (err) { h err }]. *)
Fixpoint try_catch {A : Type} (p : prog A) (h : Error -> prog A) : prog A :=
  match p with
  | Return a => Return a
  | Throw e => h e
  | Update f k => Update f (try_catch k h)
  | TryUpdate f k => TryUpdate f (try_catch k h)
  | Await c k => Await c (fun o => try_catch (k o) h)
  end.

#[global] Instance Monad_prog : Monad prog :=
  {| ret := @Return; bind := @prog_bind |}.

#[global] Instance MonadExc_prog : MonadExc Error prog :=
  {| raise := @Throw; catch := @try_catch |}.

(** [await c]: the value of a fulfilled promise; a rejection is thrown. *)
Definition await (c : call) : prog (resp c) :=
  Await c (fun o =>
    match o with
    | Fulfilled v => Return v
    | Rejected e => Throw e
    end).

(** A setter called from asynchronous code. *)
Definition perform (f : World -> World) : prog unit := Update f (Return tt).

(** [setState] with an updater that reads what may throw.  The call itself
    returns; the updater runs, and throws, when React processes it. *)
Definition perform_setState (f : AppState -> option AppState) : prog unit :=
  TryUpdate f (Return tt).

(** [handleScan], with the [apiKey] of the render that created the
    handler.  The local [textToAnalyze] is the value of the dispatch. *)
Definition handleScan (apiKey : jsstring) (input : ScanInput) : prog unit :=
  if negb (truthy apiKey) then
    perform (setShowKeyModal true)
  else
    perform (setState (fun prev =>
      {| status := Status.fetching_data; error := None; verdict := None;
         generatedImage := None |})) ;;
    catch
      (textToAnalyze <-
         (if type input === lit "wiki" then
            await (fetchWikiContent (content input))
          else if type input === lit "github" then
            await (fetchGithubActivity (content input))
          else if type input === lit "reddit" then
            await (fetchRedditActivity (content input) apiKey)
          else if type input === lit "news" then
            await (performDeepResearch (content input) apiKey)
          else ret (content input)) ;;
       perform (setState (fun prev =>
         {| status := Status.judging; error := error prev;
            verdict := verdict prev;
            generatedImage := generatedImage prev |})) ;;
       verdict' <- await (judgeInput textToAnalyze apiKey) ;;
       perform (setState (fun prev =>
         {| status := Status.generating_image; error := error prev;
            verdict := Some verdict';
            generatedImage := generatedImage prev |})) ;;
       imageBase64 <- await (generateToyOrCoal (visual_prompt verdict') apiKey) ;;
       perform (setState (fun prev =>
         {| status := Status.complete; error := error prev;
            verdict := verdict prev;
            generatedImage := Some imageBase64 |})))
      (fun err =>
         perform_setState (fun prev =>
           match read_message err with
           | None => None
           | Some message =>
               Some {| status := Status.error;
                       error := Some (or_else message
                                 (lit "Something went wrong in the workshop."));
                       verdict := verdict prev;
                       generatedImage := generatedImage prev |}
           end)).

(** *** One execution of a program *)

(** What an observer sees of an execution: the world after each update,
    the service calls, and an updater that threw, in order. *)
Inductive event : Type :=
| Updated (w : World)
| Called (c : call)
| UpdaterThrew.

(** How the services answer. *)
Definition oracle : Type := forall c : call, outcome (resp c).

Record Run (A : Type) : Type := mkRun {
  final : World;
  log : list event;
  completion : outcome A
}.
Arguments mkRun {A} final log completion.
Arguments final {A} r.
Arguments log {A} r.
Arguments completion {A} r.

(** Runs [p] to its end from the world [w]; [completion] tells whether the
    promise of the [async] function is fulfilled or rejected (an exception
    left the function).  An updater that throws leaves the state as it
    was: the exception is React's, not the function's. *)
Fixpoint run {A : Type} (p : prog A) (env : oracle) (w : World) : Run A :=
  match p with
  | Return a => mkRun w [] (Fulfilled a)
  | Throw e => mkRun w [] (Rejected e)
  | Update f k =>
      let r := run k env (f w) in
      mkRun (final r) (Updated (f w) :: log r) (completion r)
  | TryUpdate f k =>
      match f (state w) with
      | Some s' =>
          let r := run k env (setState (fun _ => s') w) in
          mkRun (final r) (Updated (setState (fun _ => s') w) :: log r)
            (completion r)
      | None =>
          let r := run k env w in
          mkRun (final r) (UpdaterThrew :: log r) (completion r)
      end
  | Await c k =>
      let r := run (k (env c)) env w in
      mkRun (final r) (Called c :: log r) (completion r)
  end.

(** The statuses the state passes through, and the calls made. *)
Definition statuses (l : list event) : list Status.t :=
  flat_map (fun e => match e with
                     | Updated w => [status (state w)]
                     | Called _ => []
                     | UpdaterThrew => []
                     end) l.

Definition calls (l : list event) : list call :=
  flat_map (fun e => match e with
                     | Updated _ => []
                     | Called c => [c]
                     | UpdaterThrew => []
                     end) l.

(** *** The component over time *)

(** A scan suspended at an [await]: the call it waits for and what it does
    when the promise settles. *)
Record Suspended : Type := mkSuspended {
  awaited : call;
  resume : outcome (resp awaited) -> prog unit
}.

(** Runs [p] up to its next [await] (or to its end).  [None]: an updater
    threw while React rendered, which unmounts the tree: the component is
    no more. *)
Fixpoint advance (p : prog unit) (w : World)
    : option (World * option Suspended) :=
  match p with
  | Return _ => Some (w, None)
  | Throw _ => Some (w, None)
  | Update f k => advance k (f w)
  | TryUpdate f k =>
      match f (state w) with
      | Some s' => advance k (setState (fun _ => s') w)
      | None => None
      end
  | Await c k => Some (w, Some (mkSuspended c k))
  end.

(** The component and the scans in flight. *)
Record App : Type := mkApp {
  world : World;
  inflight : list Suspended
}.

(** The [disabled] prop handed to [InputForm]. *)
Definition disabled (a : App) : bool := isProcessing (state (world a)).

(** The inline handlers of the JSX and the named synchronous handlers. *)
Inductive action : Type :=
| ClickKeyButton
| ChangeTempKey (value : jsstring)
| ClickSaveKey
| DismissKeyModal
| ClickExport
| ChangeExportPassword (value : jsstring)
| ClickUnlock
| DismissExportModal.

Definition handle (unicode_upper : N -> list N) (act : action) (w : World) : World :=
  match act with
  | ClickKeyButton => setShowKeyModal true (setTempKey (apiKey w) w)
  | ChangeTempKey value => setTempKey value w
  | ClickSaveKey => saveApiKey w
  | DismissKeyModal => setShowKeyModal false w
  | ClickExport => handleExportClick w
  | ChangeExportPassword value =>
      setPasswordError false (setExportPassword value w)
  | ClickUnlock => handleUnlockSleigh unicode_upper w
  | DismissExportModal => setShowExportModal false w
  end.

Definition suspended_list (s : option Suspended) : list Suspended :=
  match s with Some x => [x] | None => [] end.

Inductive label : Type :=
| Submit (input : ScanInput)
| Settle
| Act (act : action).

(** Modelled from the spec: components/InputForm.tsx is not part of the
    sources at hand; by the spec the input collector is "disabled while a
    scan is in flight" and the UI "disables new submissions during that
    window", so [InputForm] calls [onScan] only while its [disabled] prop
    is false.  This is the premise of [step_submit]; the other rules come
    from App.tsx. *)
Inductive step (unicode_upper : N -> list N) : App -> label -> App -> Prop :=
| step_submit : forall a input w' s,
    disabled a = false ->
    advance (handleScan (apiKey (world a)) input) (world a) = Some (w', s) ->
    step unicode_upper a (Submit input)
      (mkApp w' (suspended_list s ++ inflight a))
| step_settle : forall a before s after o w' s',
    inflight a = before ++ s :: after ->
    advance (resume s o) (world a) = Some (w', s') ->
    step unicode_upper a Settle
      (mkApp w' (before ++ suspended_list s' ++ after))
| step_act : forall a act,
    step unicode_upper a (Act act)
      (mkApp (handle unicode_upper act (world a)) (inflight a)).

(** The component once mounted, for the given content of local storage and
    build-time key. *)
Definition mounted (stored : Storage) (envKey : option jsstring) : App :=
  mkApp (initializeKey envKey (initialWorld stored)) [].

Inductive reachable (unicode_upper : N -> list N)
    (stored : Storage) (envKey : option jsstring) : App -> Prop :=
| reachable_mounted : reachable unicode_upper stored envKey (mounted stored envKey)
| reachable_step : forall a l a',
    reachable unicode_upper stored envKey a ->
    step unicode_upper a l a' ->
    reachable unicode_upper stored envKey a'.

(** ** Vocabulary of the properties *)

(** One scan from the world [w]: the handler of the current render, run to
    its end against the services [env]. *)
Definition scan (env : oracle) (w : World) (input : ScanInput) : Run unit :=
  run (handleScan (apiKey w) input) env w.

(** The state a scan starts from: everything but the status cleared. *)
Definition clearedState : AppState :=
  {| status := Status.fetching_data; error := None; verdict := None;
     generatedImage := None |}.

Definition fallbackMessage : jsstring :=
  lit "Something went wrong in the workshop.".

(** The calls that follow the evidence step when it ended as [evidence]:
    the judge on the text, then the image generator on the verdict's
    prompt; nothing after a rejection. *)
Definition calls_after_evidence (env : oracle) (key : jsstring)
    (evidence : outcome jsstring) : list call :=
  match evidence with
  | Rejected _ => []
  | Fulfilled text =>
      judgeInput text key ::
      match env (judgeInput text key) with
      | Rejected _ => []
      | Fulfilled v => [generateToyOrCoal (visual_prompt v) key]
      end
  end.

(** No service call of the list was rejected. *)
Definition all_fulfilled (env : oracle) (cs : list call) : Prop :=
  forall c, In c cs -> exists v, env c = Fulfilled v.

(** Services for the examples: every call succeeds. *)
Definition helpful_services : oracle :=
  fun c =>
    match c return outcome (resp c) with
    | fetchWikiContent _ => Fulfilled (lit "page text")
    | fetchGithubActivity _ => Fulfilled (lit "commits")
    | fetchRedditActivity _ _ => Fulfilled (lit "posts")
    | performDeepResearch _ _ => Fulfilled (lit "headlines")
    | judgeInput _ _ => Fulfilled (mkVerdict (lit "a toy reindeer") (lit "nice"))
    | generateToyOrCoal _ _ => Fulfilled (lit "iVBORw0KGgo=")
    end.

(** Services whose image generator fails with the given error. *)
Definition no_image_services (e : Error) : oracle :=
  fun c =>
    match c return outcome (resp c) with
    | generateToyOrCoal _ _ => Rejected e
    | c' => helpful_services c'
    end.

(** Services whose encyclopedia fetch fails with the given error. *)
Definition no_wiki_services (e : Error) : oracle :=
  fun c =>
    match c return outcome (resp c) with
    | fetchWikiContent _ => Rejected e
    | c' => helpful_services c'
    end.

(** The working status a scan is in while it waits for the call [c]. *)
Definition status_during (c : call) : Status.t :=
  match c with
  | judgeInput _ _ => Status.judging
  | generateToyOrCoal _ _ => Status.generating_image
  | _ => Status.fetching_data
  end.

(** A world with a key set, and the scan of the spec's scenario. *)
Definition keyedWorld : World := setApiKey (lit "AIzaSy-test") (initialWorld []).

Definition rudolph : ScanInput := mkScanInput (lit "wiki") (lit "Rudolph").

(** Case-insensitive equality with an ASCII word: same length, and each
    code point is the word's letter in either case. *)
Definition same_letter (c l : N) : bool :=
  (c =? l) || ((65 <=? l) && (l <=? 90) && (c =? l + 32)).

Fixpoint equals_ignoring_case (s word : jsstring) : bool :=
  match s, word with
  | [], [] => true
  | c :: s', l :: word' => same_letter c l && equals_ignoring_case s' word'
  | _, _ => false
  end.

(** The property of the Unicode case tables the export gate depends on: no
    code point outside ASCII has an upper case made of the letters H and O
    only (in Unicode the upper cases that reach into ASCII are I, S, SS,
    FF, FI, FL, FFI, FFL, ST, and letters followed by a combining mark). *)
Definition upper_avoids_HO (unicode_upper : N -> list N) : Prop :=
  forall c, 128 <= c ->
    exists u, In u (unicode_upper c) /\ u <> 72 /\ u <> 79.

(** A fragment of the Unicode table for the examples: sharp s, dotless i,
    long s, h with line below; other code points unchanged. *)
Definition sample_upper (c : N) : list N :=
  if c =? 223 then [83; 83]
  else if c =? 305 then [73]
  else if c =? 383 then [83]
  else if c =? 7830 then [72; 817]
  else [c].

(** All code points of a string are white space. *)
Definition whitespace_only (s : jsstring) : Prop :=
  forall c, In c s -> isWhiteSpace c = true.

(** A string that neither starts nor ends with white space and is not
    empty. *)
Definition trimmed (s : jsstring) : Prop :=
  (exists c s', s = c :: s' /\ isWhiteSpace c = false) /\
  (exists s' c, s = s' ++ [c] /\ isWhiteSpace c = false).

(** "Present", for a stored or build-time key: neither null/undefined nor
    the empty string, which is what the tests [if (storedKey)] and
    [if (envKey)] accept. *)
Definition present (v : option jsstring) : bool := truthy_opt v.

(** A scan that keeps the form disabled while it waits, lets no exception
    out, and ends with the status complete or error, from whatever world
    it is resumed in, unless an updater throws (which ends the
    component). *)
Fixpoint guards_form (p : prog unit) (w : World) : Prop :=
  match p with
  | Return _ =>
      status (state w) = Status.complete \/ status (state w) = Status.error
  | Throw _ => False
  | Update f k => guards_form k (f w)
  | TryUpdate f k =>
      match f (state w) with
      | Some s' => guards_form k (setState (fun _ => s') w)
      | None => True
      end
  | Await c k =>
      isProcessing (state w) = true /\
      forall o w', guards_form (k o) w'
  end.

(** No scan in flight and the form enabled, or exactly one and the form
    disabled. *)
Definition quiet_or_single (a : App) : Prop :=
  (inflight a = [] /\ disabled a = false) \/
  (exists s, inflight a = [s] /\ disabled a = true /\
             forall o w', guards_form (resume s o) w').

(** The component with a stored key, just after the scan of [rudolph] was
    submitted. *)
Definition storedKey_example : Storage := [(GEMINI_API_KEY, lit "AIzaSy-test")].

Definition submitted : App :=
  let a := mounted storedKey_example None in
  match advance (handleScan (apiKey (world a)) rudolph) (world a) with
  | Some (w', s) => mkApp w' (suspended_list s ++ inflight a)
  | None => a
  end.

(** ** The rendered tree *)

(** The props of [VerdictCard]. *)
Record VerdictCardProps : Type := mkVerdictCardProps {
  card_verdict : Verdict;
  imageUrl : option jsstring;
  loadingImage : bool
}.

(** The two lines of the status message. *)
Record StatusMessage : Type := mkStatusMessage {
  headline : jsstring;
  caption : jsstring
}.

(** The parts of the tree returned by [App] that depend on its state:
    whether the key button is in its "Key Set" variant, the [disabled] prop
    of the form, the status message, the error banner, the verdict card,
    and the two modals with the value of their input (the export modal
    also with whether the error paragraph is there).  The header, the
    static texts and the class names are left out. *)
Record View : Type := mkView {
  keyButton_keySet : bool;
  inputForm_disabled : bool;
  statusMessage : option StatusMessage;
  errorBanner : option jsstring;
  verdictCard : option VerdictCardProps;
  keyModal : option jsstring;
  exportModal : option (jsstring * bool)
}.

Definition render (w : World) : View :=
  let st := state w in
  {| keyButton_keySet := truthy (apiKey w);
     inputForm_disabled := isProcessing st;
     statusMessage :=
       if Status.eqb (status st) Status.fetching_data
          || Status.eqb (status st) Status.judging
       then Some
         {| headline :=
              if Status.eqb (status st) Status.fetching_data
              then lit "Checking the List..."
              else lit "Checking it twice...";
            caption :=
              if Status.eqb (status st) Status.fetching_data
              then lit "Gathering evidence from the archives..."
              else lit "Consulting with Santa..." |}
       else None;
     errorBanner :=
       match error st with
       | Some m => if truthy m then Some m else None
       | None => None
       end;
     verdictCard :=
       match verdict st with
       | Some v =>
           Some {| card_verdict := v;
                   imageUrl := generatedImage st;
                   loadingImage :=
                     Status.eqb (status st) Status.generating_image |}
       | None => None
       end;
     keyModal := if showKeyModal w then Some (tempKey w) else None;
     exportModal :=
       if showExportModal w
       then Some (exportPassword w, passwordError w)
       else None |}.

(** ** Vocabulary of the further properties *)

(** The cells a scan does not own are the same in [w'] as in [w]. *)
Definition same_frame (w w' : World) : Prop :=
  apiKey w' = apiKey w /\ tempKey w' = tempKey w /\
  showExportModal w' = showExportModal w /\
  exportPassword w' = exportPassword w /\
  passwordError w' = passwordError w /\
  localStorage w' = localStorage w /\
  downloadRepo_calls w' = downloadRepo_calls w.

(** Every update of the program, on every path, keeps the frame. *)
Fixpoint keeps_frame (p : prog unit) : Prop :=
  match p with
  | Return _ => True
  | Throw _ => True
  | Update f k => (forall w, same_frame w (f w)) /\ keeps_frame k
  | TryUpdate _ k => keeps_frame k
  | Await c k => forall o, keeps_frame (k o)
  end.

(** The key a service is given, if it takes one. *)
Definition key_of (c : call) : option jsstring :=
  match c with
  | fetchWikiContent _ => None
  | fetchGithubActivity _ => None
  | fetchRedditActivity _ k => Some k
  | performDeepResearch _ k => Some k
  | judgeInput _ k => Some k
  | generateToyOrCoal _ k => Some k
  end.

(** The four fields of the state fit its status. *)
Definition consistent (s : AppState) : Prop :=
  match status s with
  | Status.idle | Status.fetching_data | Status.judging =>
      error s = None /\ verdict s = None /\ generatedImage s = None
  | Status.generating_image =>
      error s = None /\ verdict s <> None /\ generatedImage s = None
  | Status.complete =>
      error s = None /\ verdict s <> None /\ generatedImage s <> None
  | Status.error =>
      (exists m, error s = Some m /\ m <> []) /\ generatedImage s = None
  end.

(** A scan that, resumed in a world whose state is the one it was
    suspended in, passes through consistent states only, waits in working
    states and ends in a state that is not a working one, unless an
    updater throws (which ends the component). *)
Fixpoint keeps_consistent (p : prog unit) (w : World) : Prop :=
  match p with
  | Return _ => consistent (state w) /\ isProcessing (state w) = false
  | Throw _ => False
  | Update f k => consistent (state (f w)) /\ keeps_consistent k (f w)
  | TryUpdate f k =>
      match f (state w) with
      | Some s' => consistent s' /\ keeps_consistent k (setState (fun _ => s') w)
      | None => True
      end
  | Await c k =>
      consistent (state w) /\ isProcessing (state w) = true /\
      forall o w', state w' = state w -> keeps_consistent (k o) w'
  end.

Definition consistent_app (a : App) : Prop :=
  consistent (state (world a)) /\
  ((inflight a = [] /\ disabled a = false) \/
   (exists s, inflight a = [s] /\ disabled a = true /\
              forall o w', state w' = state (world a) ->
                           keeps_consistent (resume s o) w')).

(** The frame invariant of the component: all scans in flight keep the
    frame. *)
Definition framed_app (a : App) : Prop :=
  Forall (fun s => forall o, keeps_frame (resume s o)) (inflight a).

(** The error paragraph of the export modal is backed by a failed test. *)
Definition flag_is_earned (unicode_upper : N -> list N) (w : World) : Prop :=
  passwordError w = true ->
  (toUpperCase unicode_upper (exportPassword w) === lit "HOHOHO") = false.

(** States of the examples: the mounted component, then a password typed
    and the unlock clicked, the unlock clicked on the empty password, and
    a key typed and saved. *)
Definition mountedExample : App := mounted storedKey_example None.

Definition act_on (act : action) (a : App) : App :=
  mkApp (handle sample_upper act (world a)) (inflight a).

Definition typed_password : App :=
  act_on (ChangeExportPassword (lit "hohoho")) mountedExample.

Definition unlocked : App := act_on ClickUnlock typed_password.

Definition refused : App := act_on ClickUnlock mountedExample.

Definition typed_key : App :=
  act_on (ChangeTempKey (lit "  abc  ")) mountedExample.

Definition saved_key : App := act_on ClickSaveKey typed_key.

(** ** Properties *)

(** *** Strings and statuses *)

Lemma jsstring_eqb_eq (a b : jsstring) : (a === b) = true <-> a = b.
Proof.
  revert b; induction a as [|x a IH]; intros [|y b]; simpl;
    try (split; congruence).
  rewrite andb_true_iff, N.eqb_eq, IH. split.
  - intros [-> ->]; reflexivity.
  - intros H; injection H; auto.
Qed.

Lemma jsstring_eqb_refl (a : jsstring) : (a === a) = true.
Proof. apply jsstring_eqb_eq; reflexivity. Qed.

Lemma jsstring_eqb_neq (a b : jsstring) : (a === b) = false <-> a <> b.
Proof.
  rewrite <- not_true_iff_false, jsstring_eqb_eq. reflexivity.
Qed.

Lemma truthy_true (s : jsstring) : truthy s = true <-> s <> [].
Proof. destruct s; simpl; split; congruence. Qed.

Lemma isProcessing_spec (s : AppState) :
  isProcessing s = true <->
  status s = Status.fetching_data \/ status s = Status.judging \/
  status s = Status.generating_image.
Proof.
  unfold isProcessing. destruct (status s); simpl; split; intros H;
    try discriminate; auto;
    repeat (destruct H as [H|H]; try discriminate); discriminate.
Qed.

Lemma or_else_truthy (v : option jsstring) (d : jsstring) :
  d <> [] -> or_else v d <> [].
Proof.
  intros Hd. destruct v as [[|c s]|]; simpl; auto; discriminate.
Qed.

Lemma not_processing_when_done (s : AppState) :
  status s = Status.complete \/ status s = Status.error ->
  isProcessing s = false.
Proof. unfold isProcessing. intros [->| ->]; reflexivity. Qed.

(** *** One scan *)

(** Case analysis on the source type, as the [if]/[else if] chain does. *)
Ltac by_source input :=
  destruct (type input === lit "wiki") eqn:Hwiki;
  [| destruct (type input === lit "github") eqn:Hgithub;
     [| destruct (type input === lit "reddit") eqn:Hreddit;
        [| destruct (type input === lit "news") eqn:Hnews ]]].

(** Case analysis on the way each awaited call settles. *)
Ltac by_answers env :=
  cbn;
  repeat match goal with
         | |- context [env ?c] =>
             let E := fresh "Eanswer" in destruct (env c) eqn:E; cbn
         | |- context [read_message ?e] => destruct e; cbn
         end.

(** Enters the body of [handleScan] past the key guard. *)
Ltac open_scan w :=
  match goal with
  | Hk : apiKey w <> [] |- _ =>
      apply truthy_true in Hk; unfold scan, handleScan; rewrite Hk;
      cbn [negb]
  end.

(** C4: submitting a scan while the API key is empty opens the key modal
    and does nothing else: the scan state (status, error, verdict,
    generatedImage) is unchanged, the only update is the one of the modal
    flag, and no service is called. *)
Theorem scan_without_key (env : oracle) (w : World) (input : ScanInput) :
  apiKey w = [] ->
  let r := scan env w input in
  final r = setShowKeyModal true w /\
  showKeyModal (final r) = true /\
  state (final r) = state w /\
  log r = [Updated (final r)] /\
  calls (log r) = [] /\
  completion r = Fulfilled tt.
Proof.
  intros Hk. unfold scan, handleScan. rewrite Hk. cbn. auto 10.
Qed.

Lemma scan_without_key_witness :
  apiKey (initialWorld []) = [] /\
  showKeyModal (final (scan helpful_services (initialWorld []) rudolph)) = true /\
  state (final (scan helpful_services (initialWorld []) rudolph)) = initialState /\
  calls (log (scan helpful_services (initialWorld []) rudolph)) = [].
Proof.
  assert (Hk : apiKey (initialWorld []) = []) by reflexivity.
  destruct (scan_without_key helpful_services (initialWorld []) rudolph Hk)
    as (_ & Hmodal & Hstate & _ & Hcalls & _).
  repeat split; assumption.
Defined.

(** C6: a scan submitted with a key present starts, from any state (so
    also from complete and from error), by one update that sets the status
    to fetching_data and clears error, verdict and generatedImage. *)
Theorem scan_starts_cleared (env : oracle) (w : World) (input : ScanInput) :
  apiKey w <> [] ->
  exists w1 rest,
    log (scan env w input) = Updated w1 :: rest /\
    w1 = setState (fun _ => clearedState) w /\
    status (state w1) = Status.fetching_data /\
    error (state w1) = None /\
    verdict (state w1) = None /\
    generatedImage (state w1) = None.
Proof.
  intros Hk. open_scan w. cbn. do 2 eexists. split; [reflexivity|].
  cbn. auto 10.
Qed.

Lemma scan_starts_cleared_witness :
  apiKey (final (scan helpful_services keyedWorld rudolph)) <> [] /\
  status (state (final (scan helpful_services keyedWorld rudolph)))
    = Status.complete /\
  exists w1 rest,
    log (scan helpful_services
           (final (scan helpful_services keyedWorld rudolph)) rudolph)
      = Updated w1 :: rest /\
    state w1 = clearedState.
Proof.
  assert (Hk : apiKey (final (scan helpful_services keyedWorld rudolph)) <> [])
    by discriminate.
  destruct (scan_starts_cleared helpful_services
              (final (scan helpful_services keyedWorld rudolph)) rudolph Hk)
    as (w1 & rest & Hlog & Hw1 & _).
  split; [exact Hk|]. split; [reflexivity|].
  exists w1, rest. split; [exact Hlog|]. rewrite Hw1. reflexivity.
Defined.

(** C3: the evidence step dispatches on the source type.  With a key
    present, the calls of a scan are: for 'wiki' the encyclopedia fetch on
    the content, for 'github' the activity fetch on the content, for
    'reddit' the social-media fetch on the content and the key, for 'news'
    the deep-research call on the content and the key, each followed by
    the calls that follow that evidence; for any other type no fetch at
    all, the calls being those that follow the raw content as evidence. *)
Theorem evidence_dispatch (env : oracle) (w : World) (input : ScanInput) :
  apiKey w <> [] ->
  let key := apiKey w in
  let made := calls (log (scan env w input)) in
  (type input = lit "wiki" ->
   made = fetchWikiContent (content input) ::
          calls_after_evidence env key
            (env (fetchWikiContent (content input)))) /\
  (type input = lit "github" ->
   made = fetchGithubActivity (content input) ::
          calls_after_evidence env key
            (env (fetchGithubActivity (content input)))) /\
  (type input = lit "reddit" ->
   made = fetchRedditActivity (content input) key ::
          calls_after_evidence env key
            (env (fetchRedditActivity (content input) key))) /\
  (type input = lit "news" ->
   made = performDeepResearch (content input) key ::
          calls_after_evidence env key
            (env (performDeepResearch (content input) key))) /\
  (type input <> lit "wiki" -> type input <> lit "github" ->
   type input <> lit "reddit" -> type input <> lit "news" ->
   made = calls_after_evidence env key (Fulfilled (content input))).
Proof.
  intros Hk key made. subst key made. open_scan w.
  by_source input;
    repeat match goal with
           | H : (_ === _) = true |- _ => apply jsstring_eqb_eq in H
           | H : (_ === _) = false |- _ => apply jsstring_eqb_neq in H
           end;
    repeat split; intros; try contradiction;
    try match goal with
        | H1 : type input = _, H2 : type input = _ |- _ =>
            rewrite H1 in H2; discriminate H2
        end;
    unfold calls_after_evidence; by_answers env; reflexivity.
Qed.

Lemma evidence_dispatch_witness :
  apiKey keyedWorld <> [] /\
  calls (log (scan helpful_services keyedWorld rudolph)) =
    [fetchWikiContent (lit "Rudolph");
     judgeInput (lit "page text") (lit "AIzaSy-test");
     generateToyOrCoal (lit "a toy reindeer") (lit "AIzaSy-test")] /\
  calls (log (scan helpful_services keyedWorld
                (mkScanInput (lit "diary") (lit "Dear Santa")))) =
    [judgeInput (lit "Dear Santa") (lit "AIzaSy-test");
     generateToyOrCoal (lit "a toy reindeer") (lit "AIzaSy-test")].
Proof.
  assert (Hk : apiKey keyedWorld <> []) by discriminate.
  split; [exact Hk|]. split.
  - destruct (evidence_dispatch helpful_services keyedWorld rudolph Hk)
      as (Hwiki & _).
    exact (Hwiki eq_refl).
  - destruct (evidence_dispatch helpful_services keyedWorld
                (mkScanInput (lit "diary") (lit "Dear Santa")) Hk)
      as (_ & _ & _ & _ & Hother).
    apply Hother; discriminate.
Defined.

(** C2: in a scan with a key present in which no call is rejected, the
    statuses are entered in the order fetching_data, judging,
    generating_image, complete; the verdict enters the state with the
    update to generating_image, which comes before the call of the image
    generator, and the generated image with the update to complete. *)
Theorem scan_success (env : oracle) (w : World) (input : ScanInput) :
  apiKey w <> [] ->
  all_fulfilled env (calls (log (scan env w input))) ->
  let r := scan env w input in
  statuses (log r) =
    [Status.fetching_data; Status.judging; Status.generating_image;
     Status.complete] /\
  exists fetched text v image w1 w2 w3,
    log r = Updated w1 :: map Called fetched ++
            [Updated w2; Called (judgeInput text (apiKey w));
             Updated w3;
             Called (generateToyOrCoal (visual_prompt v) (apiKey w));
             Updated (final r)] /\
    env (judgeInput text (apiKey w)) = Fulfilled v /\
    env (generateToyOrCoal (visual_prompt v) (apiKey w)) = Fulfilled image /\
    state w1 = clearedState /\
    state w2 = mkAppState Status.judging None None None /\
    state w3 = mkAppState Status.generating_image None (Some v) None /\
    state (final r) = mkAppState Status.complete None (Some v) (Some image).
Proof.
  intros Hk Hall r. subst r. revert Hall. unfold all_fulfilled.
  open_scan w.
  by_source input; by_answers env; intros Hall;
    try (exfalso;
         match goal with
         | E : env ?c = Rejected _ |- _ =>
             destruct (Hall c) as [? Hv]; [cbn; auto 10 | congruence]
         end).
  all: split; [reflexivity|].
  all: match goal with
       | |- exists _ _ _ _ _ _ _,
             [_; Called ?c; _; Called _; _; Called _; _] = _ /\ _ =>
           exists [c]
       | |- exists _ _ _ _ _ _ _,
             [_; _; Called _; _; Called _; _] = _ /\ _ =>
           exists []
       end.
  all: do 6 eexists; repeat split; eassumption.
Qed.

Lemma helpful_services_fulfil (cs : list call) :
  all_fulfilled helpful_services cs.
Proof. intros c _. destruct c; eexists; reflexivity. Qed.

Lemma scan_success_witness :
  apiKey keyedWorld <> [] /\
  all_fulfilled helpful_services
    (calls (log (scan helpful_services keyedWorld rudolph))) /\
  statuses (log (scan helpful_services keyedWorld rudolph)) =
    [Status.fetching_data; Status.judging; Status.generating_image;
     Status.complete].
Proof.
  assert (Hk : apiKey keyedWorld <> []) by discriminate.
  pose proof (helpful_services_fulfil
                (calls (log (scan helpful_services keyedWorld rudolph))))
    as Hall.
  destruct (scan_success helpful_services keyedWorld rudolph Hk Hall)
    as (Hstatuses & _).
  repeat split; assumption.
Defined.

(** X16: when a call of a scan (fetch, judge or image generation) is
    rejected with a value that is neither null nor undefined, the scan
    ends with the update that follows the failed call: the status is
    error, the error message is the message of the value when it has a
    non-empty one and the fallback "Something went wrong in the workshop."
    when the message is missing or empty, so it is never empty; verdict
    and generatedImage are those of the state just before the failure,
    and after a failure of the image generator the verdict is
    populated. *)
Theorem scan_failure (env : oracle) (w : World) (input : ScanInput)
    (c : call) (m : option jsstring) :
  apiKey w <> [] ->
  In c (calls (log (scan env w input))) ->
  env c = Rejected (mkError m) ->
  let r := scan env w input in
  exists before w_pre,
    log r = before ++ [Updated w_pre; Called c; Updated (final r)] /\
    status (state (final r)) = Status.error /\
    error (state (final r)) = Some (or_else m fallbackMessage) /\
    or_else m fallbackMessage <> [] /\
    (forall m', m = Some m' -> m' <> [] ->
                error (state (final r)) = Some m') /\
    (m = None \/ m = Some [] ->
     error (state (final r)) = Some fallbackMessage) /\
    verdict (state (final r)) = verdict (state w_pre) /\
    generatedImage (state (final r)) = generatedImage (state w_pre) /\
    (forall prompt key, c = generateToyOrCoal prompt key ->
       exists v, verdict (state (final r)) = Some v /\
                 visual_prompt v = prompt).
Proof.
  intros Hk Hin Hrej r. subst r. revert Hin.
  open_scan w.
  by_source input; by_answers env; intros Hin;
    repeat (destruct Hin as [Hin|Hin]; [subst c|]); try contradiction;
    try congruence.
  all: rewrite Hrej in *.
  all: match goal with
       | H : Rejected _ = Rejected _ |- _ => injection H as ->
       end.
  all: match goal with
       | |- exists _ _, [_; _; _] = _ /\ _ => exists []
       | |- exists _ _, [?x1; _; _; _] = _ /\ _ => exists [x1]
       | |- exists _ _, [?x1; ?x2; _; _; _] = _ /\ _ => exists [x1; x2]
       | |- exists _ _, [?x1; ?x2; ?x3; _; _; _] = _ /\ _ =>
           exists [x1; x2; x3]
       | |- exists _ _, [?x1; ?x2; ?x3; ?x4; _; _; _] = _ /\ _ =>
           exists [x1; x2; x3; x4]
       end; eexists; (split; [reflexivity|]).
  all: cbn; repeat split; try reflexivity;
    try (apply or_else_truthy; discriminate).
  all: try (intros m' Hm Hne; rewrite Hm; destruct m'; [congruence|reflexivity]).
  all: try (intros [Hm|Hm]; rewrite Hm; reflexivity).
  all: intros prompt key Hc; try discriminate Hc.
  all: injection Hc as <- _; eexists; split; reflexivity.
Qed.

Lemma scan_failure_witness :
  apiKey keyedWorld <> [] /\
  In (generateToyOrCoal (lit "a toy reindeer") (lit "AIzaSy-test"))
     (calls (log (scan (no_image_services (mkError None)) keyedWorld rudolph))) /\
  no_image_services (mkError None)
    (generateToyOrCoal (lit "a toy reindeer") (lit "AIzaSy-test"))
    = Rejected (mkError None) /\
  status (state (final (scan (no_image_services (mkError None))
                          keyedWorld rudolph))) = Status.error /\
  error (state (final (scan (no_image_services (mkError None))
                         keyedWorld rudolph))) = Some fallbackMessage /\
  exists v,
    verdict (state (final (scan (no_image_services (mkError None))
                             keyedWorld rudolph))) = Some v /\
    visual_prompt v = lit "a toy reindeer".
Proof.
  assert (Hk : apiKey keyedWorld <> []) by discriminate.
  assert (Hin : In (generateToyOrCoal (lit "a toy reindeer") (lit "AIzaSy-test"))
                  (calls (log (scan (no_image_services (mkError None))
                                 keyedWorld rudolph))))
    by (vm_compute; auto).
  assert (Hrej : no_image_services (mkError None)
                   (generateToyOrCoal (lit "a toy reindeer") (lit "AIzaSy-test"))
                 = Rejected (mkError None)) by reflexivity.
  destruct (scan_failure (no_image_services (mkError None)) keyedWorld rudolph
              _ _ Hk Hin Hrej)
    as (before & w_pre & _ & Hstatus & _ & _ & _ & Hfallback & _ & _ & Hv).
  split; [exact Hk|]. split; [exact Hin|]. split; [exact Hrej|].
  split; [exact Hstatus|].
  split; [apply Hfallback; left; reflexivity|].
  exact (Hv _ _ eq_refl).
Defined.

(** C1, where the code departs from it: when a call of a scan is rejected
    with null or undefined, reading [err.message] makes the updater of
    the catch block throw, so the scan ends without the error state: the
    last update is the one before the failed call, the status is not
    error and there is no error message. *)
Theorem nullish_rejection_sets_no_error (env : oracle) (w : World)
    (input : ScanInput) (c : call) :
  apiKey w <> [] ->
  In c (calls (log (scan env w input))) ->
  env c = Rejected NullOrUndefined ->
  let r := scan env w input in
  exists before,
    log r = before ++ [Updated (final r); Called c; UpdaterThrew] /\
    status (state (final r)) <> Status.error /\
    error (state (final r)) = None.
Proof.
  intros Hk Hin Hrej r. subst r. revert Hin.
  open_scan w.
  by_source input; by_answers env; intros Hin;
    repeat (destruct Hin as [Hin|Hin]; [subst c|]); try contradiction;
    try congruence.
  all: match goal with
       | |- exists _, [_; _; _] = _ /\ _ => exists []
       | |- exists _, [?x1; _; _; _] = _ /\ _ => exists [x1]
       | |- exists _, [?x1; ?x2; _; _; _] = _ /\ _ => exists [x1; x2]
       | |- exists _, [?x1; ?x2; ?x3; _; _; _] = _ /\ _ =>
           exists [x1; x2; x3]
       | |- exists _, [?x1; ?x2; ?x3; ?x4; _; _; _] = _ /\ _ =>
           exists [x1; x2; x3; x4]
       end.
  all: cbn; repeat split; discriminate.
Qed.

Lemma nullish_rejection_sets_no_error_witness :
  apiKey keyedWorld <> [] /\
  In (fetchWikiContent (lit "Rudolph"))
     (calls (log (scan (no_wiki_services NullOrUndefined) keyedWorld rudolph))) /\
  no_wiki_services NullOrUndefined (fetchWikiContent (lit "Rudolph"))
    = Rejected NullOrUndefined /\
  status (state (final (scan (no_wiki_services NullOrUndefined)
                          keyedWorld rudolph))) <> Status.error /\
  error (state (final (scan (no_wiki_services NullOrUndefined)
                         keyedWorld rudolph))) = None.
Proof.
  assert (Hk : apiKey keyedWorld <> []) by discriminate.
  assert (Hin : In (fetchWikiContent (lit "Rudolph"))
                  (calls (log (scan (no_wiki_services NullOrUndefined)
                                 keyedWorld rudolph))))
    by (vm_compute; auto).
  assert (Hrej : no_wiki_services NullOrUndefined
                   (fetchWikiContent (lit "Rudolph"))
                 = Rejected NullOrUndefined) by reflexivity.
  destruct (nullish_rejection_sets_no_error (no_wiki_services NullOrUndefined)
              keyedWorld rudolph _ Hk Hin Hrej)
    as (before & _ & Hstatus & Herror).
  repeat split; assumption.
Defined.

(** X17: a scan started with a key present in which no call is rejected
    with null or undefined never ends with the status in a working phase:
    the handler's promise is fulfilled (no exception leaves it) and the
    final status is complete or error. *)
Theorem scan_settles (env : oracle) (w : World) (input : ScanInput) :
  apiKey w <> [] ->
  (forall c, In c (calls (log (scan env w input))) ->
             env c <> Rejected NullOrUndefined) ->
  let r := scan env w input in
  completion r = Fulfilled tt /\
  (status (state (final r)) = Status.complete \/
   status (state (final r)) = Status.error) /\
  isProcessing (state (final r)) = false.
Proof.
  intros Hk Hnone r. subst r. revert Hnone. open_scan w.
  by_source input; by_answers env; intros Hnone; auto;
    exfalso;
    match goal with
    | E : env ?c = Rejected NullOrUndefined |- _ =>
        apply (Hnone c); [cbn; auto 10 | exact E]
    end.
Qed.

Lemma scan_settles_witness :
  apiKey keyedWorld <> [] /\
  completion (scan (no_image_services (mkError (Some (lit "quota exceeded"))))
                keyedWorld rudolph) = Fulfilled tt /\
  status (state (final (scan (no_image_services
                                (mkError (Some (lit "quota exceeded"))))
                          keyedWorld rudolph))) = Status.error.
Proof.
  assert (Hk : apiKey keyedWorld <> []) by discriminate.
  assert (Hnone : forall c,
            In c (calls (log (scan (no_image_services
                                      (mkError (Some (lit "quota exceeded"))))
                                keyedWorld rudolph))) ->
            no_image_services (mkError (Some (lit "quota exceeded"))) c
              <> Rejected NullOrUndefined).
  { intros c Hin. vm_compute in Hin.
    destruct Hin as [<-|[<-|[<-|[]]]]; discriminate. }
  destruct (scan_settles (no_image_services
                            (mkError (Some (lit "quota exceeded"))))
              keyedWorld rudolph Hk Hnone) as (Hdone & _ & _).
  split; [exact Hk|]. split; [exact Hdone | reflexivity].
Defined.

(** C10, where the code departs from it: when a call of a scan is
    rejected with null or undefined, the handler's promise is fulfilled
    and yet the status is left in the working phase the scan was in while
    it waited for that call (fetching_data, judging or generating_image):
    neither complete nor error. *)
Theorem nullish_rejection_leaves_working (env : oracle) (w : World)
    (input : ScanInput) (c : call) :
  apiKey w <> [] ->
  In c (calls (log (scan env w input))) ->
  env c = Rejected NullOrUndefined ->
  let r := scan env w input in
  completion r = Fulfilled tt /\
  status (state (final r)) = status_during c /\
  isProcessing (state (final r)) = true /\
  status (state (final r)) <> Status.complete /\
  status (state (final r)) <> Status.error.
Proof.
  intros Hk Hin Hrej r. subst r. revert Hin.
  open_scan w.
  by_source input; by_answers env; intros Hin;
    repeat (destruct Hin as [Hin|Hin]; [subst c|]); try contradiction;
    try congruence.
  all: cbn; repeat split; discriminate.
Qed.

Lemma nullish_rejection_leaves_working_witness :
  apiKey keyedWorld <> [] /\
  In (generateToyOrCoal (lit "a toy reindeer") (lit "AIzaSy-test"))
     (calls (log (scan (no_image_services NullOrUndefined) keyedWorld rudolph))) /\
  no_image_services NullOrUndefined
    (generateToyOrCoal (lit "a toy reindeer") (lit "AIzaSy-test"))
    = Rejected NullOrUndefined /\
  completion (scan (no_image_services NullOrUndefined) keyedWorld rudolph)
    = Fulfilled tt /\
  status (state (final (scan (no_image_services NullOrUndefined)
                          keyedWorld rudolph))) = Status.generating_image.
Proof.
  assert (Hk : apiKey keyedWorld <> []) by discriminate.
  assert (Hin : In (generateToyOrCoal (lit "a toy reindeer") (lit "AIzaSy-test"))
                  (calls (log (scan (no_image_services NullOrUndefined)
                                 keyedWorld rudolph))))
    by (vm_compute; auto).
  assert (Hrej : no_image_services NullOrUndefined
                   (generateToyOrCoal (lit "a toy reindeer") (lit "AIzaSy-test"))
                 = Rejected NullOrUndefined) by reflexivity.
  destruct (nullish_rejection_leaves_working (no_image_services NullOrUndefined)
              keyedWorld rudolph _ Hk Hin Hrej)
    as (Hdone & Hstatus & _).
  split; [exact Hk|]. split; [exact Hin|]. split; [exact Hrej|].
  split; [exact Hdone | exact Hstatus].
Defined.

(** *** Trimming *)

Lemma trimStart_whitespace (s : jsstring) :
  whitespace_only s <-> trimStart s = [].
Proof.
  unfold whitespace_only. induction s as [|c s IH]; simpl.
  - split; [reflexivity | contradiction].
  - destruct (isWhiteSpace c) eqn:Hc.
    + rewrite <- IH. split.
      * intros H x Hx. apply H. right. exact Hx.
      * intros H x [<-|Hx]; auto.
    + split; [|discriminate].
      intros H. rewrite (H c) in Hc by (left; reflexivity). discriminate.
Qed.

Lemma trimStart_app (lead s : jsstring) :
  whitespace_only lead -> trimStart (lead ++ s) = trimStart s.
Proof.
  induction lead as [|c lead IH]; intros H; simpl; [reflexivity|].
  rewrite (H c) by (left; reflexivity).
  apply IH. intros x Hx. apply H. right. exact Hx.
Qed.

Lemma trimStart_split (s : jsstring) :
  exists lead, s = lead ++ trimStart s /\ whitespace_only lead.
Proof.
  induction s as [|c s (lead & Hs & Hl)]; simpl.
  - exists []. split; [reflexivity | intros x []].
  - destruct (isWhiteSpace c) eqn:Hc.
    + exists (c :: lead). split.
      * simpl. f_equal. exact Hs.
      * intros x [<-|Hx]; auto.
    + exists []. split; [reflexivity | intros x []].
Qed.

Lemma trimStart_head (s : jsstring) (c : N) (s' : jsstring) :
  trimStart s = c :: s' -> isWhiteSpace c = false.
Proof.
  induction s as [|x s IH]; simpl; [discriminate|].
  destruct (isWhiteSpace x) eqn:Hx; [exact IH|].
  intros H. injection H as <- _. exact Hx.
Qed.

Lemma whitespace_only_rev (s : jsstring) :
  whitespace_only s -> whitespace_only (rev s).
Proof. intros H c Hc. apply H. apply in_rev. exact Hc. Qed.

Lemma trim_whitespace (s : jsstring) : whitespace_only s <-> trim s = [].
Proof.
  unfold trim, trimEnd. split.
  - intros H. apply trimStart_whitespace in H. rewrite H. reflexivity.
  - intros H. apply trimStart_whitespace.
    destruct (trimStart s) as [|c s'] eqn:Hs; [reflexivity|].
    pose proof (trimStart_head _ _ _ Hs) as Hc.
    apply (f_equal (@rev N)) in H. rewrite rev_involutive in H.
    simpl in H. apply trimStart_whitespace in H.
    rewrite (H c) in Hc; [discriminate|].
    apply in_or_app. right. left. reflexivity.
Qed.

Lemma trim_surrounded (lead key trail : jsstring) :
  whitespace_only lead -> whitespace_only trail -> trimmed key ->
  trim (lead ++ key ++ trail) = key.
Proof.
  intros Hl Ht [(c & s1 & Hk1 & Hc) (s2 & d & Hk2 & Hd)].
  unfold trim, trimEnd. rewrite (trimStart_app _ _ Hl).
  assert (Hfront : trimStart (key ++ trail) = key ++ trail).
  { rewrite Hk1. simpl. rewrite Hc. reflexivity. }
  rewrite Hfront, rev_app_distr.
  rewrite (trimStart_app _ _ (whitespace_only_rev _ Ht)).
  assert (Hback : trimStart (rev key) = rev key).
  { rewrite Hk2, rev_app_distr. simpl. rewrite Hd. reflexivity. }
  rewrite Hback. apply rev_involutive.
Qed.

Lemma trim_split (s : jsstring) :
  ~ whitespace_only s ->
  exists lead trail,
    s = lead ++ trim s ++ trail /\ whitespace_only lead /\
    whitespace_only trail /\ trimmed (trim s).
Proof.
  intros Hs.
  destruct (trimStart_split s) as (lead & Hsplit & Hlead).
  destruct (trimStart_split (rev (trimStart s))) as (trail & Hsplit' & Htrail).
  exists lead, (rev trail). unfold trim, trimEnd.
  assert (Hback : trimStart s = rev (trimStart (rev (trimStart s))) ++ rev trail).
  { rewrite <- rev_app_distr, <- Hsplit'. symmetry. apply rev_involutive. }
  repeat split.
  - rewrite <- Hback. exact Hsplit.
  - exact Hlead.
  - apply whitespace_only_rev. exact Htrail.
  - destruct (trimStart s) as [|c s1] eqn:Hts.
    { exfalso. apply Hs. apply trimStart_whitespace. exact Hts. }
    pose proof (trimStart_head _ _ _ Hts) as Hc.
    destruct (trimStart (rev (c :: s1))) as [|d s2] eqn:Hr.
    { exfalso. apply trimStart_whitespace in Hr.
      rewrite (Hr c) in Hc; [discriminate|].
      apply -> in_rev. left. reflexivity. }
    simpl in Hback. destruct (rev s2 ++ [d]) as [|x rest] eqn:Hx.
    { destruct (rev s2); discriminate. }
    simpl. rewrite Hx. simpl in Hback. injection Hback as <- _.
    exists c, rest. split; [reflexivity | exact Hc].
  - destruct (trimStart (rev (trimStart s))) as [|d s2] eqn:Hr.
    { exfalso. apply Hs. apply trimStart_whitespace.
      apply trimStart_whitespace in Hr.
      destruct (trimStart s) as [|c s1] eqn:Hts; [reflexivity|].
      pose proof (trimStart_head _ _ _ Hts) as Hc.
      rewrite (Hr c) in Hc; [discriminate|].
      apply -> in_rev. left. reflexivity. }
    exists (rev s2), d. split; [reflexivity|].
    exact (trimStart_head _ _ _ Hr).
Qed.

(** *** Saving the key *)

Lemma getItem_setItem (st : Storage) (k v : jsstring) :
  getItem (setItem st k v) k = Some v.
Proof. unfold setItem. simpl. rewrite jsstring_eqb_refl. reflexivity. Qed.

Lemma saveApiKey_stores (w : World) :
  trim (tempKey w) <> [] ->
  saveApiKey w =
    setShowKeyModal false
      (setApiKey (trim (tempKey w))
         (localStorage_setItem GEMINI_API_KEY (trim (tempKey w)) w)).
Proof.
  intros H. apply truthy_true in H. unfold saveApiKey. rewrite H. reflexivity.
Qed.

(** [saveApiKey], the only writer of local storage, never stores an empty
    key: a stored key is absent or present. *)
Lemma saveApiKey_stored_key (w : World) :
  getItem (localStorage w) GEMINI_API_KEY <> Some [] ->
  getItem (localStorage (saveApiKey w)) GEMINI_API_KEY <> Some [].
Proof.
  intros Hw. unfold saveApiKey.
  destruct (truthy (trim (tempKey w))) eqn:Hkey; [|exact Hw].
  unfold setShowKeyModal, setApiKey, localStorage_setItem.
  cbn [localStorage]. rewrite getItem_setItem.
  apply truthy_true in Hkey. congruence.
Qed.

(** C7: saving an empty or whitespace-only key input changes nothing
    (in-memory key, local storage and modal flag included); saving an
    input made of a key surrounded by white space, such as "  abc  ",
    stores the key without the surrounding white space ("abc") in local
    storage and in memory and closes the key modal; every input that is
    not whitespace-only is of that form. *)
Theorem saveApiKey_trims (w : World) :
  (whitespace_only (tempKey w) -> saveApiKey w = w) /\
  (forall lead key trail,
     tempKey w = lead ++ key ++ trail ->
     whitespace_only lead -> whitespace_only trail -> trimmed key ->
     getItem (localStorage (saveApiKey w)) GEMINI_API_KEY = Some key /\
     apiKey (saveApiKey w) = key /\
     showKeyModal (saveApiKey w) = false) /\
  (tempKey w = lit "  abc  " ->
     getItem (localStorage (saveApiKey w)) GEMINI_API_KEY = Some (lit "abc") /\
     apiKey (saveApiKey w) = lit "abc" /\
     showKeyModal (saveApiKey w) = false) /\
  (~ whitespace_only (tempKey w) ->
     exists lead trail,
       tempKey w = lead ++ apiKey (saveApiKey w) ++ trail /\
       whitespace_only lead /\ whitespace_only trail /\
       trimmed (apiKey (saveApiKey w))).
Proof.
  assert (Hstore : forall key, key <> [] -> trim (tempKey w) = key ->
            getItem (localStorage (saveApiKey w)) GEMINI_API_KEY = Some key /\
            apiKey (saveApiKey w) = key /\
            showKeyModal (saveApiKey w) = false).
  { intros key Hne Htrim. rewrite saveApiKey_stores by congruence.
    rewrite Htrim. unfold setShowKeyModal, setApiKey, localStorage_setItem.
    cbn [localStorage apiKey showKeyModal].
    rewrite getItem_setItem. auto. }
  split; [|split; [|split]].
  - intros H. apply trim_whitespace in H. unfold saveApiKey. rewrite H.
    reflexivity.
  - intros lead key trail Hsplit Hlead Htrail Hkey.
    apply Hstore.
    + destruct Hkey as [(c & s & -> & _) _]. discriminate.
    + rewrite Hsplit. apply trim_surrounded; assumption.
  - intros Hw. apply Hstore; [discriminate|]. rewrite Hw. reflexivity.
  - intros Hw. destruct (trim_split _ Hw) as (lead & trail & H).
    exists lead, trail.
    assert (Hk : apiKey (saveApiKey w) = trim (tempKey w)).
    { apply Hstore; [|reflexivity]. intros Hnil. apply Hw.
      apply trim_whitespace. exact Hnil. }
    rewrite Hk. exact H.
Qed.

Lemma saveApiKey_trims_witness :
  whitespace_only (lit "  ") /\ trimmed (lit "abc") /\
  getItem (localStorage (saveApiKey (setTempKey (lit "  abc  ") (initialWorld []))))
    GEMINI_API_KEY = Some (lit "abc") /\
  apiKey (saveApiKey (setTempKey (lit "  abc  ") (initialWorld []))) = lit "abc" /\
  showKeyModal (saveApiKey (setTempKey (lit "  abc  ") (initialWorld []))) = false.
Proof.
  assert (Hws : whitespace_only (lit "  ")).
  { intros c [<-|[<-|[]]]; reflexivity. }
  assert (Hkey : trimmed (lit "abc")).
  { split.
    - exists 97, (lit "bc"). split; reflexivity.
    - exists (lit "ab"), 99. split; reflexivity. }
  destruct (saveApiKey_trims (setTempKey (lit "  abc  ") (initialWorld [])))
    as (_ & Hsurrounded & _).
  split; [exact Hws|]. split; [exact Hkey|].
  exact (Hsurrounded (lit "  ") (lit "abc") (lit "  ") eq_refl Hws Hws Hkey).
Defined.

(** *** The export gate *)

Lemma same_letter_upper (unicode_upper : N -> list N) (c l : N) :
  c < 128 -> l = 72 \/ l = 79 ->
  (upper_code_point unicode_upper c = [l] <-> same_letter c l = true).
Proof.
  intros Hc Hl. unfold upper_code_point, same_letter.
  apply N.ltb_lt in Hc. rewrite Hc.
  destruct ((97 <=? c) && (c <=? 122)) eqn:Hlow.
  - apply andb_true_iff in Hlow. destruct Hlow as [H1 H2].
    apply N.leb_le in H1, H2.
    rewrite orb_true_iff, !andb_true_iff, !N.eqb_eq, !N.leb_le.
    split.
    + intros H. injection H as H. right. lia.
    + intros [H|[_ H]]; [lia|]. f_equal. lia.
  - rewrite orb_true_iff, !andb_true_iff, !N.eqb_eq, !N.leb_le.
    apply andb_false_iff in Hlow. rewrite !N.leb_gt in Hlow.
    split.
    + intros H. injection H as H. left. exact H.
    + intros [H|[_ H]]; [congruence|]. lia.
Qed.

Lemma toUpperCase_matches (unicode_upper : N -> list N) :
  upper_avoids_HO unicode_upper ->
  forall word, Forall (fun l => l = 72 \/ l = 79) word ->
  forall s, toUpperCase unicode_upper s = word <->
            equals_ignoring_case s word = true.
Proof.
  intros Hup word Hword s. revert word Hword.
  induction s as [|c s IH]; intros word Hword.
  - destruct word; simpl; split; congruence.
  - cbn [toUpperCase flat_map]. fold (toUpperCase unicode_upper s).
    destruct (N.lt_ge_cases c 128) as [Hc|Hc].
    + destruct word as [|l word]; simpl.
      * split; [|discriminate]. unfold upper_code_point.
        apply N.ltb_lt in Hc. rewrite Hc. discriminate.
      * inversion Hword as [|? ? Hl Hrest]; subst.
        rewrite andb_true_iff, <- (IH word Hrest),
          <- (same_letter_upper unicode_upper c l Hc Hl).
        unfold upper_code_point. apply N.ltb_lt in Hc. rewrite Hc.
        simpl. split.
        -- intros H. injection H as -> ->. auto.
        -- intros [H ->]. injection H as ->. reflexivity.
    + assert (Hnever : equals_ignoring_case (c :: s) word = false).
      { destruct word as [|l word]; [reflexivity|]. simpl.
        inversion Hword as [|? ? Hl _]; subst.
        unfold same_letter.
        replace (c =? l) with false by (symmetry; apply N.eqb_neq; lia).
        replace (c =? l + 32) with false by (symmetry; apply N.eqb_neq; lia).
        rewrite andb_false_r. reflexivity. }
      rewrite Hnever. split; [|discriminate].
      intros H. exfalso.
      destruct (Hup c Hc) as (u & Hu & H72 & H79).
      assert (Hin : In u word).
      { rewrite <- H. apply in_or_app. left.
        unfold upper_code_point.
        replace (c <? 128) with false by (symmetry; apply N.ltb_ge; exact Hc).
        exact Hu. }
      rewrite Forall_forall in Hword. destruct (Hword u Hin); contradiction.
Qed.

Lemma unlock_test (unicode_upper : N -> list N) (s : jsstring) :
  upper_avoids_HO unicode_upper ->
  (toUpperCase unicode_upper s === lit "HOHOHO") =
  equals_ignoring_case s (lit "HOHOHO").
Proof.
  intros Hup.
  assert (Hword : Forall (fun l => l = 72 \/ l = 79) (lit "HOHOHO")).
  { cbv. repeat (apply Forall_cons; [auto|]). apply Forall_nil. }
  pose proof (toUpperCase_matches unicode_upper Hup _ Hword s) as H.
  destruct (equals_ignoring_case s (lit "HOHOHO")).
  - apply jsstring_eqb_eq. apply H. reflexivity.
  - apply jsstring_eqb_neq. intros Heq. apply H in Heq. discriminate.
Qed.

(** C8: the export unlock succeeds exactly when the entered password is
    "HOHOHO" up to the case of its letters: then the download is
    triggered once and the export modal closes; otherwise the error flag
    is set, the download is not triggered and the modal stays.  "hohoho",
    "HOHOHO" and "HoHoHo" succeed, "xmas" fails.  The Unicode table of
    the runtime enters through the one property [upper_avoids_HO]. *)
Theorem unlock_password (unicode_upper : N -> list N) (w : World) :
  upper_avoids_HO unicode_upper ->
  let w' := handleUnlockSleigh unicode_upper w in
  (equals_ignoring_case (exportPassword w) (lit "HOHOHO") = true ->
     downloadRepo_calls w' = S (downloadRepo_calls w) /\
     showExportModal w' = false /\
     passwordError w' = passwordError w) /\
  (equals_ignoring_case (exportPassword w) (lit "HOHOHO") = false ->
     passwordError w' = true /\
     downloadRepo_calls w' = downloadRepo_calls w /\
     showExportModal w' = showExportModal w) /\
  (In (exportPassword w) [lit "hohoho"; lit "HOHOHO"; lit "HoHoHo"] ->
     downloadRepo_calls w' = S (downloadRepo_calls w) /\
     showExportModal w' = false) /\
  (exportPassword w = lit "xmas" ->
     passwordError w' = true /\
     downloadRepo_calls w' = downloadRepo_calls w).
Proof.
  intros Hup w'. subst w'. unfold handleUnlockSleigh.
  rewrite (unlock_test unicode_upper _ Hup).
  split; [|split; [|split]]; intros H.
  - rewrite H. cbn. auto.
  - rewrite H. cbn. auto.
  - destruct H as [H|[H|[H|[]]]]; rewrite <- H; cbn; auto.
  - rewrite H. cbn. auto.
Qed.

Lemma sample_upper_avoids_HO : upper_avoids_HO sample_upper.
Proof.
  intros c Hc. unfold sample_upper.
  destruct (c =? 223); [exists 83; simpl; split; [auto | lia]|].
  destruct (c =? 305); [exists 73; simpl; split; [auto | lia]|].
  destruct (c =? 383); [exists 83; simpl; split; [auto | lia]|].
  destruct (c =? 7830); [exists 817; simpl; split; [auto | lia]|].
  exists c. simpl. split; [auto | lia].
Qed.

Lemma unlock_password_witness :
  upper_avoids_HO sample_upper /\
  downloadRepo_calls
    (handleUnlockSleigh sample_upper
       (setExportPassword (lit "HoHoHo") keyedWorld)) = 1%nat /\
  showExportModal
    (handleUnlockSleigh sample_upper
       (setExportPassword (lit "HoHoHo") keyedWorld)) = false.
Proof.
  destruct (unlock_password sample_upper
              (setExportPassword (lit "HoHoHo") keyedWorld)
              sample_upper_avoids_HO) as (Hmatch & _).
  split; [exact sample_upper_avoids_HO|].
  destruct (Hmatch eq_refl) as (Hdown & Hmodal & _).
  split; [exact Hdown | exact Hmodal].
Defined.

(** *** The key at startup *)

(** C9: on mount the API key becomes the stored value when one is
    present; otherwise the build-time value when that one is present;
    otherwise it stays empty.  Nothing else changes.  A value is present
    when it is neither null/undefined nor the empty string. *)
Theorem initializeKey_precedence (stored : Storage) (envKey : option jsstring) :
  let storedKey := getItem stored GEMINI_API_KEY in
  let w := initializeKey envKey (initialWorld stored) in
  (present storedKey = true -> Some (apiKey w) = storedKey) /\
  (present storedKey = false -> present envKey = true ->
   Some (apiKey w) = envKey) /\
  (present storedKey = false -> present envKey = false -> apiKey w = []) /\
  w = setApiKey (apiKey w) (initialWorld stored).
Proof.
  intros storedKey w. subst storedKey w. unfold initializeKey, present.
  cbn [localStorage initialWorld].
  destruct (getItem stored GEMINI_API_KEY) as [[|c k]|];
    destruct envKey as [[|c' k']|]; cbn; repeat split; congruence.
Qed.

Lemma initializeKey_precedence_witness :
  present (getItem storedKey_example GEMINI_API_KEY) = true /\
  Some (apiKey (initializeKey (Some (lit "build-time-key"))
                  (initialWorld storedKey_example)))
    = Some (lit "AIzaSy-test").
Proof.
  destruct (initializeKey_precedence storedKey_example
              (Some (lit "build-time-key"))) as (Hstored & _).
  split; [reflexivity|].
  exact (Hstored eq_refl).
Defined.

(** *** The component over time *)

Lemma handleScan_guards (key : jsstring) (input : ScanInput) (w : World) :
  key <> [] -> guards_form (handleScan key input) w.
Proof.
  intros Hk. apply truthy_true in Hk. unfold handleScan. rewrite Hk.
  cbn [negb].
  by_source input; cbn;
    repeat (first [ split; [reflexivity|]
                  | intros [?|?] ?; cbn
                  | match goal with
                    | |- context [read_message ?e] => destruct e; cbn
                    end
                  | exact I
                  | right; reflexivity
                  | left; reflexivity ]).
Qed.

Lemma advance_guarded (p : prog unit) (w w' : World)
    (s : option Suspended) :
  guards_form p w ->
  advance p w = Some (w', s) ->
  match s with
  | None =>
      status (state w') = Status.complete \/
      status (state w') = Status.error
  | Some s =>
      isProcessing (state w') = true /\
      forall o w'', guards_form (resume s o) w''
  end.
Proof.
  revert w. induction p as [a|e|f k IH|f k IH|c k IH]; intros w H Hadv;
    simpl in *.
  - injection Hadv as <- <-. exact H.
  - contradiction.
  - exact (IH (f w) H Hadv).
  - destruct (f (state w)) as [s'|]; [|discriminate].
    exact (IH _ H Hadv).
  - injection Hadv as <- <-. exact H.
Qed.

Lemma handle_state (unicode_upper : N -> list N) (act : action) (w : World) :
  state (handle unicode_upper act w) = state w.
Proof.
  destruct act; simpl; try reflexivity.
  - unfold saveApiKey. destruct (truthy (trim (tempKey w))); reflexivity.
  - unfold handleUnlockSleigh.
    destruct (toUpperCase unicode_upper (exportPassword w) === lit "HOHOHO");
      reflexivity.
Qed.

Lemma initializeKey_state (envKey : option jsstring) (w : World) :
  state (initializeKey envKey w) = state w.
Proof.
  unfold initializeKey.
  destruct (getItem (localStorage w) GEMINI_API_KEY) as [[|c k]|];
    destruct envKey as [[|c' k']|]; reflexivity.
Qed.

Lemma singleton_split (s0 s : Suspended) (before after : list Suspended) :
  [s0] = before ++ s :: after -> before = [] /\ s = s0 /\ after = [].
Proof.
  destruct before as [|x before]; simpl; intros H.
  - injection H as -> <-. auto.
  - injection H as _ H. destruct before; discriminate.
Qed.

Lemma step_keeps_single (unicode_upper : N -> list N) (a a' : App) (l : label) :
  quiet_or_single a -> step unicode_upper a l a' -> quiet_or_single a'.
Proof.
  intros Ha Hstep. destruct Hstep as [a input w' s Hen Hadv
                                     |a before s after o w' s' Hin Hadv
                                     |a act].
  - destruct Ha as [[Hnone _]|(s0 & _ & Hdis & _)]; [|congruence].
    rewrite Hnone, app_nil_r.
    destruct (apiKey (world a)) as [|c k] eqn:Hkey.
    + cbn in Hadv. injection Hadv as <- <-. left. split; [reflexivity|].
      exact Hen.
    + pose proof (advance_guarded _ (world a) _ _
                    (handleScan_guards (c :: k) input (world a)
                       ltac:(discriminate)) Hadv) as Hg.
      destruct s as [s|].
      * right. exists s. destruct Hg as [Hp Hg]. auto.
      * left. split; [reflexivity|].
        apply not_processing_when_done. exact Hg.
  - destruct Ha as [[Hnone _]|(s0 & Hone & _ & Hg0)].
    { rewrite Hnone in Hin. destruct before; discriminate. }
    rewrite Hone in Hin.
    assert (before = [] /\ s = s0 /\ after = []) as (-> & -> & ->).
    { apply singleton_split. exact Hin. }
    pose proof (advance_guarded _ (world a) _ _ (Hg0 o (world a)) Hadv)
      as Hg.
    cbn [app].
    rewrite app_nil_r. destruct s' as [s'|].
    + right. exists s'. destruct Hg as [Hp Hg]. auto.
    + left. split; [reflexivity|].
      apply not_processing_when_done. exact Hg.
  - unfold quiet_or_single, disabled in *. cbn [world inflight].
    rewrite handle_state. exact Ha.
Qed.

Lemma reachable_quiet_or_single (unicode_upper : N -> list N)
    (stored : Storage) (envKey : option jsstring) (a : App) :
  reachable unicode_upper stored envKey a -> quiet_or_single a.
Proof.
  induction 1 as [|a l a' _ IH Hstep].
  - left. split; [reflexivity|]. unfold disabled, mounted. cbn [world].
    rewrite initializeKey_state. reflexivity.
  - exact (step_keeps_single unicode_upper a a' l IH Hstep).
Qed.

(** C5: in every reachable state the form is disabled exactly when the
    status is fetching_data, judging or generating_image; at most one
    scan is in flight; a scan is in flight exactly when the form is
    disabled, so no submission is accepted while one is; and a scan that
    ends leaves the status complete or error. *)
Theorem single_scan_in_flight (unicode_upper : N -> list N)
    (stored : Storage) (envKey : option jsstring) (a : App) :
  reachable unicode_upper stored envKey a ->
  (disabled a = true <->
   status (state (world a)) = Status.fetching_data \/
   status (state (world a)) = Status.judging \/
   status (state (world a)) = Status.generating_image) /\
  (List.length (inflight a) <= 1)%nat /\
  (inflight a <> [] <-> disabled a = true) /\
  (inflight a <> [] ->
   forall input a', ~ step unicode_upper a (Submit input) a') /\
  (forall a', step unicode_upper a Settle a' -> inflight a' = [] ->
     status (state (world a')) = Status.complete \/
     status (state (world a')) = Status.error).
Proof.
  intros Hreach.
  pose proof (reachable_quiet_or_single _ _ _ _ Hreach) as Hinv.
  assert (Hbusy : inflight a <> [] <-> disabled a = true).
  { destruct Hinv as [[Hnone Hdis]|(s & Hone & Hdis & _)].
    - rewrite Hnone, Hdis. split; congruence.
    - rewrite Hone, Hdis. split; [reflexivity | discriminate]. }
  split; [apply isProcessing_spec|].
  split.
  { destruct Hinv as [[-> _]|(s & -> & _)]; simpl; lia. }
  split; [exact Hbusy|].
  split.
  - intros Hfly input a' Hstep. apply Hbusy in Hfly.
    inversion Hstep; subst. congruence.
  - intros a' Hstep Hnone.
    destruct Hinv as [[Hquiet _]|(s0 & Hone & _ & Hg0)].
    + inversion Hstep as [|? before s after o w' s' Hin Hadv|]; subst.
      rewrite Hquiet in Hin. destruct before; discriminate.
    + inversion Hstep as [|? before s after o w' s' Hin Hadv|]; subst.
      rewrite Hone in Hin.
      assert (before = [] /\ s = s0 /\ after = []) as (-> & -> & ->).
      { apply singleton_split. exact Hin. }
      pose proof (advance_guarded _ (world a) _ _ (Hg0 o (world a)) Hadv)
        as Hg.
      cbn [inflight app] in Hnone. rewrite app_nil_r in Hnone.
      destruct s' as [s'|]; [discriminate|]. exact Hg.
Qed.

Lemma submitted_reachable :
  reachable sample_upper storedKey_example None submitted.
Proof.
  apply (reachable_step sample_upper storedKey_example None
           (mounted storedKey_example None) (Submit rudolph)).
  - apply reachable_mounted.
  - unfold submitted. cbv zeta.
    destruct (advance
                (handleScan (apiKey (world (mounted storedKey_example None)))
                   rudolph)
                (world (mounted storedKey_example None)))
      as [[w' s]|] eqn:Hadv.
    + apply step_submit; [reflexivity | exact Hadv].
    + vm_compute in Hadv. discriminate Hadv.
Qed.

Lemma single_scan_in_flight_witness :
  reachable sample_upper storedKey_example None submitted /\
  (List.length (inflight submitted) <= 1)%nat /\
  disabled submitted = true.
Proof.
  destruct (single_scan_in_flight sample_upper storedKey_example None
              submitted submitted_reachable) as (_ & Hone & Hbusy & _).
  split; [exact submitted_reachable|]. split; [exact Hone|].
  apply Hbusy. discriminate.
Defined.

(** ** Further properties *)

(** The states of the examples are reachable. *)
Lemma act_on_reachable (act : action) (a : App) :
  reachable sample_upper storedKey_example None a ->
  reachable sample_upper storedKey_example None (act_on act a).
Proof.
  intros Ha.
  exact (reachable_step _ _ _ a (Act act) _ Ha (step_act sample_upper a act)).
Qed.

Lemma same_frame_refl (w : World) : same_frame w w.
Proof. unfold same_frame. auto 10. Qed.

Lemma same_frame_trans (w1 w2 w3 : World) :
  same_frame w1 w2 -> same_frame w2 w3 -> same_frame w1 w3.
Proof.
  unfold same_frame. intros (?&?&?&?&?&?&?) (?&?&?&?&?&?&?).
  repeat split; congruence.
Qed.

Lemma handleScan_keeps_frame (key : jsstring) (input : ScanInput) :
  keeps_frame (handleScan key input).
Proof.
  unfold handleScan. destruct (truthy key); cbn [negb].
  - by_source input; cbn;
      repeat (first [ split; [intros w; unfold same_frame; cbn; auto 10|]
                    | intros [?|?]; cbn
                    | exact I ]).
  - cbn. split; [intros w; unfold same_frame; cbn; auto 10 | exact I].
Qed.

(** *** What a scan leaves alone *)

Lemma same_frame_setState (f : AppState -> AppState) (w : World) :
  same_frame w (setState f w).
Proof. unfold same_frame. cbn. auto 10. Qed.

Lemma advance_keeps_frame (p : prog unit) (w w' : World)
    (s : option Suspended) :
  keeps_frame p ->
  advance p w = Some (w', s) ->
  same_frame w w' /\
  forall s0, s = Some s0 -> forall o, keeps_frame (resume s0 o).
Proof.
  revert w. induction p as [a|e|f k IH|f k IH|c k IH]; intros w Hp Hadv;
    simpl in *.
  - injection Hadv as <- <-. split; [apply same_frame_refl | discriminate].
  - injection Hadv as <- <-. split; [apply same_frame_refl | discriminate].
  - destruct Hp as [Hf Hk]. destruct (IH (f w) Hk Hadv) as [Hframe Hs].
    split; [|exact Hs]. exact (same_frame_trans _ _ _ (Hf w) Hframe).
  - destruct (f (state w)) as [s'|]; [|discriminate].
    destruct (IH _ Hp Hadv) as [Hframe Hs].
    split; [|exact Hs].
    exact (same_frame_trans _ _ _ (same_frame_setState _ w) Hframe).
  - injection Hadv as <- <-. split; [apply same_frame_refl|].
    intros s0 Hs. injection Hs as <-. exact Hp.
Qed.

Lemma run_keeps_frame (p : prog unit) (env : oracle) (w : World) :
  keeps_frame p ->
  same_frame w (final (run p env w)) /\
  forall w', In (Updated w') (log (run p env w)) -> same_frame w w'.
Proof.
  revert w. induction p as [a|e|f k IH|f k IH|c k IH]; intros w Hp;
    simpl in *.
  - split; [apply same_frame_refl | contradiction].
  - split; [apply same_frame_refl | contradiction].
  - destruct Hp as [Hf Hk]. destruct (IH (f w) Hk) as [Hfinal Hlog].
    split; [exact (same_frame_trans _ _ _ (Hf w) Hfinal)|].
    intros w' [Heq|Hin].
    + injection Heq as <-. apply Hf.
    + exact (same_frame_trans _ _ _ (Hf w) (Hlog w' Hin)).
  - destruct (f (state w)) as [s'|]; cbn [final log].
    + destruct (IH (setState (fun _ => s') w) Hp) as [Hfinal Hlog].
      pose proof (same_frame_setState (fun _ => s') w) as Hset.
      split; [exact (same_frame_trans _ _ _ Hset Hfinal)|].
      intros w' [Heq|Hin].
      * injection Heq as <-. exact Hset.
      * exact (same_frame_trans _ _ _ Hset (Hlog w' Hin)).
    + destruct (IH w Hp) as [Hfinal Hlog].
      split; [exact Hfinal|].
      intros w' [Heq|Hin]; [discriminate | exact (Hlog w' Hin)].
  - destruct (IH (env c) w (Hp (env c))) as [Hfinal Hlog].
    split; [exact Hfinal|].
    intros w' [Heq|Hin]; [discriminate | exact (Hlog w' Hin)].
Qed.

(** X5: a scan never changes the API key, the key draft, local storage,
    the export modal, its password and error flag, nor triggers a
    download: these cells are the same after every update of the scan
    and at its end.  The key modal flag ends as it was, or raised when the
    key is empty. *)
Theorem scan_keeps_frame (env : oracle) (w : World) (input : ScanInput) :
  let r := scan env w input in
  same_frame w (final r) /\
  (forall w', In (Updated w') (log r) -> same_frame w w') /\
  showKeyModal (final r) = showKeyModal w || negb (truthy (apiKey w)).
Proof.
  intros r. subst r. unfold scan.
  destruct (run_keeps_frame _ env w (handleScan_keeps_frame (apiKey w) input))
    as [Hfinal Hlog].
  split; [exact Hfinal|]. split; [exact Hlog|].
  unfold handleScan. destruct (truthy (apiKey w)); cbn [negb].
  - rewrite orb_false_r.
    by_source input; cbn;
      repeat match goal with
             | |- context [env ?c] => destruct (env c); cbn
             | |- context [read_message ?e] => destruct e; cbn
             end; reflexivity.
  - cbn. rewrite orb_true_r. reflexivity.
Qed.

Lemma reachable_framed (unicode_upper : N -> list N)
    (stored : Storage) (envKey : option jsstring) (a : App) :
  reachable unicode_upper stored envKey a -> framed_app a.
Proof.
  unfold framed_app.
  induction 1 as [|a l a' _ IH Hstep]; [constructor|].
  destruct Hstep as [a input w' s Hen Hadv
                    |a before s after o w' s' Hin Hadv
                    |a act]; cbn [inflight].
  - apply Forall_app. split; [|exact IH].
    destruct s as [s|]; [|constructor].
    constructor; [|constructor].
    exact (proj2 (advance_keeps_frame _ (world a) _ _
                    (handleScan_keeps_frame (apiKey (world a)) input) Hadv)
             s eq_refl).
  - rewrite Hin in IH. apply Forall_app in IH. destruct IH as [Hb Hsa].
    inversion Hsa as [|? ? Hs Ha]; subst.
    apply Forall_app. split; [exact Hb|].
    apply Forall_app. split; [|exact Ha].
    destruct s' as [s'|]; [|constructor].
    constructor; [|constructor].
    exact (proj2 (advance_keeps_frame _ (world a) _ _ (Hs o) Hadv)
             s' eq_refl).
  - exact IH.
Qed.

(** A step that is not an action keeps the frame. *)
Lemma scan_step_frame (unicode_upper : N -> list N) (a a' : App) (l : label) :
  framed_app a -> step unicode_upper a l a' ->
  (forall act, l <> Act act) ->
  same_frame (world a) (world a').
Proof.
  unfold framed_app. intros Hfr Hstep Hl.
  destruct Hstep as [a input w' s Hen Hadv
                    |a before s after o w' s' Hin Hadv
                    |a act]; cbn [world].
  - exact (proj1 (advance_keeps_frame _ (world a) _ _
                    (handleScan_keeps_frame (apiKey (world a)) input) Hadv)).
  - rewrite Hin in Hfr. apply Forall_app in Hfr. destruct Hfr as [_ Hsa].
    inversion Hsa as [|? ? Hs _]; subst.
    exact (proj1 (advance_keeps_frame _ (world a) _ _ (Hs o) Hadv)).
  - exfalso. exact (Hl act eq_refl).
Qed.

Lemma label_cases (l : label) :
  (exists act, l = Act act) \/ (forall act, l <> Act act).
Proof.
  destruct l; [right; discriminate | right; discriminate | left; eauto].
Qed.

(** X13: from a reachable state, a step leaves the number of downloads
    unchanged, or it is a click on Unlock whose password passes the test,
    and it triggers exactly one download. *)
Theorem download_needs_password (unicode_upper : N -> list N)
    (stored : Storage) (envKey : option jsstring) (a a' : App) (l : label) :
  reachable unicode_upper stored envKey a ->
  step unicode_upper a l a' ->
  downloadRepo_calls (world a') = downloadRepo_calls (world a) \/
  (l = Act ClickUnlock /\
   (toUpperCase unicode_upper (exportPassword (world a)) === lit "HOHOHO")
     = true /\
   downloadRepo_calls (world a') = S (downloadRepo_calls (world a))).
Proof.
  intros Hreach Hstep.
  destruct (label_cases l) as [[act ->]|Hl].
  - inversion Hstep; subst. cbn [world].
    destruct act; try (left; reflexivity).
    + left. cbn. unfold saveApiKey.
      destruct (truthy (trim (tempKey (world a)))); reflexivity.
    + cbn. unfold handleUnlockSleigh.
      destruct (toUpperCase unicode_upper (exportPassword (world a))
                === lit "HOHOHO") eqn:Htest.
      * right. auto.
      * left. reflexivity.
  - left.
    apply (scan_step_frame unicode_upper a a' l
             (reachable_framed _ _ _ _ Hreach) Hstep Hl).
Qed.

Lemma download_needs_password_witness :
  reachable sample_upper storedKey_example None typed_password /\
  step sample_upper typed_password (Act ClickUnlock) unlocked /\
  (downloadRepo_calls (world unlocked) = downloadRepo_calls (world typed_password) \/
   (Act ClickUnlock = Act ClickUnlock /\
    (toUpperCase sample_upper (exportPassword (world typed_password))
     === lit "HOHOHO") = true /\
    downloadRepo_calls (world unlocked)
      = S (downloadRepo_calls (world typed_password)))).
Proof.
  assert (Hr : reachable sample_upper storedKey_example None typed_password)
    by (apply act_on_reachable; apply reachable_mounted).
  assert (Hs : step sample_upper typed_password (Act ClickUnlock) unlocked)
    by apply step_act.
  split; [exact Hr|]. split; [exact Hs|].
  exact (download_needs_password sample_upper storedKey_example None
           typed_password unlocked (Act ClickUnlock) Hr Hs).
Defined.

Lemma handle_key (unicode_upper : N -> list N) (act : action) (w : World) :
  act <> ClickSaveKey ->
  apiKey (handle unicode_upper act w) = apiKey w /\
  localStorage (handle unicode_upper act w) = localStorage w.
Proof.
  intros Hact. destruct act; try contradiction; cbn; auto.
  unfold handleUnlockSleigh.
  destruct (toUpperCase unicode_upper (exportPassword w) === lit "HOHOHO");
    auto.
Qed.

(** X10: from a reachable state, a step that changes the API key or
    local storage is a click on Save with a draft that is not blank, and
    it makes the trimmed draft the key. *)
Theorem key_changes_by_save_only (unicode_upper : N -> list N)
    (stored : Storage) (envKey : option jsstring) (a a' : App) (l : label) :
  reachable unicode_upper stored envKey a ->
  step unicode_upper a l a' ->
  apiKey (world a') <> apiKey (world a) \/
  localStorage (world a') <> localStorage (world a) ->
  l = Act ClickSaveKey /\ ~ whitespace_only (tempKey (world a)) /\
  apiKey (world a') = trim (tempKey (world a)).
Proof.
  intros Hreach Hstep Hdiff.
  destruct (label_cases l) as [[act ->]|Hl].
  - inversion Hstep; subst. cbn [world] in *.
    assert (Hact : act = ClickSaveKey).
    { destruct act; try reflexivity; exfalso;
        match type of Hdiff with
        | context [handle _ ?x _] =>
            destruct (handle_key unicode_upper x (world a)) as [Hk Hs];
            [discriminate | destruct Hdiff; auto]
        end. }
    subst act. split; [reflexivity|].
    cbn [handle] in *. unfold saveApiKey in *.
    destruct (truthy (trim (tempKey (world a)))) eqn:Ht.
    + split; [|reflexivity]. intros Hws.
      apply trim_whitespace in Hws. rewrite Hws in Ht. discriminate.
    + exfalso. destruct Hdiff as [H|H]; apply H; reflexivity.
  - exfalso.
    destruct (scan_step_frame unicode_upper a a' l
                (reachable_framed _ _ _ _ Hreach) Hstep Hl)
      as (Hk & _ & _ & _ & _ & Hs & _).
    destruct Hdiff; auto.
Qed.

Lemma key_changes_by_save_only_witness :
  reachable sample_upper storedKey_example None typed_key /\
  step sample_upper typed_key (Act ClickSaveKey) saved_key /\
  (apiKey (world saved_key) <> apiKey (world typed_key) \/
   localStorage (world saved_key) <> localStorage (world typed_key)) /\
  apiKey (world saved_key) = lit "abc".
Proof.
  assert (Hr : reachable sample_upper storedKey_example None typed_key)
    by (apply act_on_reachable; apply reachable_mounted).
  assert (Hs : step sample_upper typed_key (Act ClickSaveKey) saved_key)
    by apply step_act.
  assert (Hd : apiKey (world saved_key) <> apiKey (world typed_key) \/
               localStorage (world saved_key) <> localStorage (world typed_key))
    by (left; discriminate).
  destruct (key_changes_by_save_only sample_upper storedKey_example None
              typed_key saved_key (Act ClickSaveKey) Hr Hs Hd)
    as (_ & _ & Hkey).
  repeat split; try assumption.
Defined.

(** A property of the frame that holds once mounted and that every action
    keeps holds in every reachable state. *)
Lemma frame_invariant (unicode_upper : N -> list N)
    (stored : Storage) (envKey : option jsstring) (P : World -> Prop) :
  P (initializeKey envKey (initialWorld stored)) ->
  (forall w w', same_frame w w' -> P w -> P w') ->
  (forall act w, P w -> P (handle unicode_upper act w)) ->
  forall a, reachable unicode_upper stored envKey a -> P (world a).
Proof.
  intros Hinit Hframe Hact a Hreach.
  induction Hreach as [|a l a' Hreach IH Hstep]; [exact Hinit|].
  destruct (label_cases l) as [[act ->]|Hl].
  - inversion Hstep; subst. apply Hact. exact IH.
  - apply (Hframe (world a)); [|exact IH].
    exact (scan_step_frame unicode_upper a a' l
             (reachable_framed _ _ _ _ Hreach) Hstep Hl).
Qed.

Lemma initializeKey_storage (envKey : option jsstring) (w : World) :
  localStorage (initializeKey envKey w) = localStorage w.
Proof.
  unfold initializeKey.
  destruct (getItem (localStorage w) GEMINI_API_KEY) as [[|c k]|];
    destruct envKey as [[|c' k']|]; reflexivity.
Qed.

(** X11: in every reachable state, when local storage holds a
    (non-empty) key, the key in memory is that key. *)
Theorem memory_mirrors_storage (unicode_upper : N -> list N)
    (stored : Storage) (envKey : option jsstring) (a : App) :
  reachable unicode_upper stored envKey a ->
  present (getItem (localStorage (world a)) GEMINI_API_KEY) = true ->
  Some (apiKey (world a)) = getItem (localStorage (world a)) GEMINI_API_KEY.
Proof.
  revert a.
  apply (frame_invariant unicode_upper stored envKey
           (fun w => present (getItem (localStorage w) GEMINI_API_KEY) = true ->
                     Some (apiKey w) = getItem (localStorage w) GEMINI_API_KEY)).
  - rewrite initializeKey_storage. unfold initializeKey, present.
    cbn [localStorage initialWorld].
    destruct (getItem stored GEMINI_API_KEY) as [[|c k]|]; cbn;
      try discriminate. reflexivity.
  - intros w w' (Hk & _ & _ & _ & _ & Hs & _) Hw. rewrite Hk, Hs. exact Hw.
  - intros act w Hw.
    destruct act;
      try match goal with
          | |- context [handle _ ?x _] =>
              destruct (handle_key unicode_upper x w) as [Hk Hs];
              [discriminate | rewrite Hk, Hs; exact Hw]
          end.
    cbn [handle]. unfold saveApiKey.
    destruct (truthy (trim (tempKey w))); [|exact Hw].
    intros _. unfold setShowKeyModal, setApiKey, localStorage_setItem.
    cbn [localStorage apiKey]. rewrite getItem_setItem. reflexivity.
Qed.

Lemma memory_mirrors_storage_witness :
  reachable sample_upper storedKey_example None saved_key /\
  present (getItem (localStorage (world saved_key)) GEMINI_API_KEY) = true /\
  Some (apiKey (world saved_key))
    = getItem (localStorage (world saved_key)) GEMINI_API_KEY.
Proof.
  assert (Hr : reachable sample_upper storedKey_example None saved_key)
    by (do 2 apply act_on_reachable; apply reachable_mounted).
  split; [exact Hr|]. split; [reflexivity|].
  exact (memory_mirrors_storage sample_upper storedKey_example None saved_key
           Hr eq_refl).
Defined.

Lemma getItem_setItem_other (st : Storage) (k k' v : jsstring) :
  k <> k' -> getItem (setItem st k' v) k = getItem st k.
Proof.
  intros Hk. unfold setItem. cbn [getItem].
  replace (k' === k) with false
    by (symmetry; apply jsstring_eqb_neq; congruence).
  induction st as [|[k0 v0] st IH]; [reflexivity|]. cbn [filter fst getItem].
  destruct (k0 === k') eqn:E0; cbn [negb].
  - apply jsstring_eqb_eq in E0. subst k0.
    replace (k' === k) with false
      by (symmetry; apply jsstring_eqb_neq; congruence).
    exact IH.
  - cbn [getItem]. destruct (k0 === k); [reflexivity | exact IH].
Qed.

(** X12: the component never touches the other entries of local
    storage: in every reachable state every item but GEMINI_API_KEY is as
    it was at mount. *)
Theorem other_storage_untouched (unicode_upper : N -> list N)
    (stored : Storage) (envKey : option jsstring) (a : App) (k : jsstring) :
  reachable unicode_upper stored envKey a ->
  k <> GEMINI_API_KEY ->
  getItem (localStorage (world a)) k = getItem stored k.
Proof.
  intros Hreach Hk. revert a Hreach.
  apply (frame_invariant unicode_upper stored envKey
           (fun w => getItem (localStorage w) k = getItem stored k)).
  - rewrite initializeKey_storage. reflexivity.
  - intros w w' (_ & _ & _ & _ & _ & Hs & _) Hw. rewrite Hs. exact Hw.
  - intros act w Hw.
    destruct act;
      try match goal with
          | |- context [handle _ ?x _] =>
              destruct (handle_key unicode_upper x w) as [_ Hs];
              [discriminate | rewrite Hs; exact Hw]
          end.
    cbn [handle]. unfold saveApiKey.
    destruct (truthy (trim (tempKey w))); [|exact Hw].
    unfold setShowKeyModal, setApiKey, localStorage_setItem.
    cbn [localStorage]. rewrite getItem_setItem_other by exact Hk. exact Hw.
Qed.

Lemma other_storage_untouched_witness :
  reachable sample_upper storedKey_example None saved_key /\
  lit "theme" <> GEMINI_API_KEY /\
  getItem (localStorage (world saved_key)) (lit "theme")
    = getItem storedKey_example (lit "theme").
Proof.
  assert (Hr : reachable sample_upper storedKey_example None saved_key)
    by (do 2 apply act_on_reachable; apply reachable_mounted).
  assert (Hk : lit "theme" <> GEMINI_API_KEY) by discriminate.
  split; [exact Hr|]. split; [exact Hk|].
  exact (other_storage_untouched sample_upper storedKey_example None saved_key
           (lit "theme") Hr Hk).
Defined.

(** X14: in every reachable state, when the error flag of the export
    modal is raised, the password in the modal fails the test: the
    incorrect-password message is never shown on a correct password. *)
Theorem password_flag_is_earned (unicode_upper : N -> list N)
    (stored : Storage) (envKey : option jsstring) (a : App) :
  reachable unicode_upper stored envKey a ->
  passwordError (world a) = true ->
  (toUpperCase unicode_upper (exportPassword (world a)) === lit "HOHOHO")
    = false.
Proof.
  revert a.
  apply (frame_invariant unicode_upper stored envKey
           (flag_is_earned unicode_upper)); unfold flag_is_earned.
  - unfold initializeKey. cbn [localStorage initialWorld].
    destruct (getItem stored GEMINI_API_KEY) as [[|c k]|];
      destruct envKey as [[|c' k']|]; cbn; intros He; discriminate He.
  - intros w w' (_ & _ & _ & Hp & He & _) Hw. rewrite Hp, He. exact Hw.
  - intros act w Hw. destruct act; cbn; try exact Hw;
      try (intros He; discriminate He).
    + unfold saveApiKey. destruct (truthy (trim (tempKey w))); exact Hw.
    + unfold handleUnlockSleigh.
      destruct (toUpperCase unicode_upper (exportPassword w) === lit "HOHOHO")
        eqn:Htest; cbn.
      * intros He. specialize (Hw He). congruence.
      * intros _. exact Htest.
Qed.

Lemma password_flag_is_earned_witness :
  reachable sample_upper storedKey_example None refused /\
  passwordError (world refused) = true /\
  (toUpperCase sample_upper (exportPassword (world refused)) === lit "HOHOHO")
    = false.
Proof.
  assert (Hr : reachable sample_upper storedKey_example None refused)
    by (apply act_on_reachable; apply reachable_mounted).
  split; [exact Hr|]. split; [reflexivity|].
  exact (password_flag_is_earned sample_upper storedKey_example None refused
           Hr eq_refl).
Defined.

(** *** The state fits the status *)

Ltac fits :=
  unfold consistent; cbn;
  repeat split; try reflexivity; try discriminate;
  try (eexists; split; [reflexivity | apply or_else_truthy; discriminate]).

Lemma handleScan_keeps_consistent (key : jsstring) (input : ScanInput)
    (w : World) :
  key <> [] -> keeps_consistent (handleScan key input) w.
Proof.
  intros Hk. apply truthy_true in Hk. unfold handleScan. rewrite Hk.
  cbn [negb].
  by_source input; cbn;
    repeat (first [ split; [solve [fits]|]
                  | solve [fits]
                  | match goal with
                    | |- forall (o : outcome _) (w' : World), _ =>
                        let Hst := fresh "Hst" in
                        intros [?|?] ? Hst; cbn; rewrite ?Hst; cbn
                    end
                  | match goal with
                    | |- context [read_message ?e] => destruct e; cbn
                    end ]).
Qed.

Lemma advance_keeps_consistent (p : prog unit) (w w' : World)
    (s : option Suspended) :
  keeps_consistent p w ->
  advance p w = Some (w', s) ->
  consistent (state w') /\
  match s with
  | None => isProcessing (state w') = false
  | Some s =>
      isProcessing (state w') = true /\
      forall o w'', state w'' = state w' ->
                    keeps_consistent (resume s o) w''
  end.
Proof.
  revert w. induction p as [a|e|f k IH|f k IH|c k IH]; intros w H Hadv;
    simpl in *.
  - injection Hadv as <- <-. exact H.
  - contradiction.
  - exact (IH (f w) (proj2 H) Hadv).
  - destruct (f (state w)) as [s'|]; [|discriminate].
    exact (IH _ (proj2 H) Hadv).
  - injection Hadv as <- <-. destruct H as (Hc & Hp & Hk). auto.
Qed.

Lemma step_keeps_consistent (unicode_upper : N -> list N) (a a' : App)
    (l : label) :
  consistent_app a -> step unicode_upper a l a' -> consistent_app a'.
Proof.
  unfold consistent_app. intros [Hc Ha] Hstep.
  destruct Hstep as [a input w' s Hen Hadv
                    |a before s after o w' s' Hin Hadv
                    |a act]; cbn [world inflight].
  - destruct Ha as [[Hnone _]|(s0 & _ & Hdis & _)]; [|congruence].
    rewrite Hnone, app_nil_r.
    destruct (apiKey (world a)) as [|c k] eqn:Hkey.
    + cbn in Hadv. injection Hadv as <- <-. split; [exact Hc|].
      left. split; [reflexivity | exact Hen].
    + pose proof (advance_keeps_consistent _ (world a) _ _
                    (handleScan_keeps_consistent (c :: k) input (world a)
                       ltac:(discriminate)) Hadv) as Hg.
      destruct Hg as [Hc' Hg].
      split; [exact Hc'|]. destruct s as [s|].
      * right. exists s. destruct Hg as [Hp Hg]. auto.
      * left. split; [reflexivity | exact Hg].
  - destruct Ha as [[Hnone _]|(s0 & Hone & _ & Hg0)].
    { rewrite Hnone in Hin. destruct before; discriminate. }
    rewrite Hone in Hin.
    apply singleton_split in Hin. destruct Hin as (-> & -> & ->).
    pose proof (advance_keeps_consistent _ (world a) _ _
                  (Hg0 o (world a) eq_refl) Hadv) as Hg.
    destruct Hg as [Hc' Hg].
    cbn [app]. rewrite app_nil_r.
    split; [exact Hc'|]. destruct s' as [s'|].
    + right. exists s'. destruct Hg as [Hp Hg]. auto.
    + left. split; [reflexivity | exact Hg].
  - unfold disabled in *. cbn [world]. rewrite handle_state.
    split; [exact Hc | exact Ha].
Qed.

Lemma reachable_consistent (unicode_upper : N -> list N)
    (stored : Storage) (envKey : option jsstring) (a : App) :
  reachable unicode_upper stored envKey a -> consistent_app a.
Proof.
  induction 1 as [|a l a' _ IH Hstep].
  - unfold consistent_app, disabled, mounted. cbn [world inflight].
    rewrite initializeKey_state. split; [fits|]. left. auto.
  - exact (step_keeps_consistent unicode_upper a a' l IH Hstep).
Qed.

Lemma consistent_facts (s : AppState) :
  consistent s ->
  (error s <> None <-> status s = Status.error) /\
  (forall m, error s = Some m -> m <> []) /\
  (generatedImage s <> None <-> status s = Status.complete) /\
  (status s = Status.generating_image \/ status s = Status.complete ->
   verdict s <> None) /\
  (status s = Status.idle \/ status s = Status.fetching_data \/
   status s = Status.judging -> verdict s = None).
Proof.
  unfold consistent. intros Hc.
  destruct (status s) eqn:Hs.
  1-3: destruct Hc as (He & Hv & Hi); rewrite He, Hi;
       repeat split; try congruence; try discriminate;
       try (intros [H|[H|H]]; congruence);
       try (intros [H|H]; discriminate H).
  1-2: destruct Hc as (He & Hv & Hi); rewrite He;
       repeat split; try congruence; try discriminate;
       try (intros [H|[H|H]]; discriminate H);
       try (intros [H|H]; congruence).
  destruct Hc as ((m & He & Hm) & Hi). rewrite He, Hi.
  repeat split; try congruence; try discriminate;
    try (intros [H|[H|H]]; discriminate H);
    try (intros [H|H]; discriminate H).
Qed.

(** X7: in every reachable state the fields fit the status: an error
    message is there exactly when the status is error, and it is not
    empty; a generated image is there exactly when the status is
    complete; a verdict is there in generating_image and complete and
    absent in idle, fetching_data and judging. *)
Theorem state_fits_status (unicode_upper : N -> list N)
    (stored : Storage) (envKey : option jsstring) (a : App) :
  reachable unicode_upper stored envKey a ->
  let s := state (world a) in
  (error s <> None <-> status s = Status.error) /\
  (forall m, error s = Some m -> m <> []) /\
  (generatedImage s <> None <-> status s = Status.complete) /\
  (status s = Status.generating_image \/ status s = Status.complete ->
   verdict s <> None) /\
  (status s = Status.idle \/ status s = Status.fetching_data \/
   status s = Status.judging -> verdict s = None).
Proof.
  intros Hreach s. apply consistent_facts.
  exact (proj1 (reachable_consistent _ _ _ _ Hreach)).
Qed.

Lemma state_fits_status_witness :
  reachable sample_upper storedKey_example None submitted /\
  verdict (state (world submitted)) = None.
Proof.
  split; [exact submitted_reachable|].
  destruct (state_fits_status sample_upper storedKey_example None submitted
              submitted_reachable) as (_ & _ & _ & _ & Hnone).
  apply Hnone. right. left. reflexivity.
Defined.

(** *** What is on screen *)

(** X8: in every reachable state the error banner is rendered exactly
    when the status is error, and it shows the non-empty message of the
    state. *)
Theorem banner_iff_error (unicode_upper : N -> list N)
    (stored : Storage) (envKey : option jsstring) (a : App) :
  reachable unicode_upper stored envKey a ->
  (errorBanner (render (world a)) <> None <->
   status (state (world a)) = Status.error) /\
  (forall m, errorBanner (render (world a)) = Some m ->
             m <> [] /\ error (state (world a)) = Some m).
Proof.
  intros Hreach.
  destruct (consistent_facts _ (proj1 (reachable_consistent _ _ _ _ Hreach)))
    as (Herr & Hmsg & _).
  unfold render. cbn [errorBanner].
  destruct (error (state (world a))) as [m|] eqn:He.
  - pose proof (Hmsg m eq_refl) as Hm. apply truthy_true in Hm. rewrite Hm.
    split.
    + rewrite <- Herr. split; discriminate.
    + intros m' H. injection H as <-. apply truthy_true in Hm. auto.
  - split; [|discriminate]. rewrite <- Herr. split; congruence.
Qed.

Lemma banner_iff_error_witness :
  reachable sample_upper storedKey_example None submitted /\
  (errorBanner (render (world submitted)) <> None <->
   status (state (world submitted)) = Status.error).
Proof.
  split; [exact submitted_reachable|].
  exact (proj1 (banner_iff_error sample_upper storedKey_example None submitted
                  submitted_reachable)).
Defined.

(** X9: in every reachable state, while the form is disabled exactly one
    progress indicator is rendered: the status message (and no verdict
    card), or the verdict card in its loading state without an image;
    while the form is enabled neither is; and a verdict card shows an
    image only when the status is complete. *)
Theorem progress_is_shown (unicode_upper : N -> list N)
    (stored : Storage) (envKey : option jsstring) (a : App) :
  reachable unicode_upper stored envKey a ->
  let v := render (world a) in
  (inputForm_disabled v = true ->
   (statusMessage v <> None /\ verdictCard v = None) \/
   (statusMessage v = None /\
    exists card, verdictCard v = Some card /\ loadingImage card = true /\
                 imageUrl card = None)) /\
  (inputForm_disabled v = false ->
   statusMessage v = None /\
   forall card, verdictCard v = Some card -> loadingImage card = false) /\
  (forall card image, verdictCard v = Some card ->
     imageUrl card = Some image ->
     status (state (world a)) = Status.complete).
Proof.
  intros Hreach v. subst v.
  pose proof (proj1 (reachable_consistent _ _ _ _ Hreach)) as Hc.
  unfold consistent in Hc. unfold render, isProcessing.
  cbn [inputForm_disabled statusMessage verdictCard].
  destruct (status (state (world a))) eqn:Hs; cbn.
  - destruct Hc as (_ & -> & _). repeat split; try discriminate.
  - destruct Hc as (_ & -> & _). split; [|split]; try discriminate.
    intros _. left. split; [discriminate | reflexivity].
  - destruct Hc as (_ & -> & _). split; [|split]; try discriminate.
    intros _. left. split; [discriminate | reflexivity].
  - destruct Hc as (_ & Hv & Hi). rewrite Hi.
    destruct (verdict (state (world a))) as [vd|]; [|congruence].
    split; [|split]; try discriminate.
    + intros _. right. split; [reflexivity|]. eexists. repeat split.
    + intros card image H. injection H as <-. cbn. discriminate.
  - destruct Hc as (_ & Hv & _).
    destruct (verdict (state (world a))) as [vd|]; [|congruence].
    split; [|split]; try discriminate; try reflexivity.
    intros _. split; [reflexivity|]. intros card H. injection H as <-.
    reflexivity.
  - destruct Hc as (_ & Hi). rewrite Hi.
    destruct (verdict (state (world a))) as [vd|].
    + split; [|split]; try discriminate.
      * intros _. split; [reflexivity|]. intros card H. injection H as <-.
        reflexivity.
      * intros card image H. injection H as <-. cbn. discriminate.
    + repeat split; try discriminate.
Qed.

Lemma progress_is_shown_witness :
  reachable sample_upper storedKey_example None submitted /\
  inputForm_disabled (render (world submitted)) = true /\
  ((statusMessage (render (world submitted)) <> None /\
    verdictCard (render (world submitted)) = None) \/
   (statusMessage (render (world submitted)) = None /\
    exists card, verdictCard (render (world submitted)) = Some card /\
                 loadingImage card = true /\ imageUrl card = None)).
Proof.
  split; [exact submitted_reachable|]. split; [reflexivity|].
  exact (proj1 (progress_is_shown sample_upper storedKey_example None submitted
                  submitted_reachable) eq_refl).
Defined.

(** *** The key modal *)

Lemma filter_twice {A : Type} (p : A -> bool) (l : list A) :
  filter p (filter p l) = filter p l.
Proof.
  induction l as [|x l IH]; [reflexivity|]. simpl.
  destruct (p x) eqn:Hx; [|exact IH]. simpl. rewrite Hx, IH. reflexivity.
Qed.

Lemma setItem_twice (st : Storage) (k v : jsstring) :
  setItem (setItem st k v) k v = setItem st k v.
Proof.
  unfold setItem. cbn [filter fst]. rewrite jsstring_eqb_refl. cbn [negb].
  rewrite filter_twice. reflexivity.
Qed.

(** X2: saving twice in a row is the same as saving once (key, local
    storage and modal included). *)
Theorem saveApiKey_twice (w : World) :
  saveApiKey (saveApiKey w) = saveApiKey w.
Proof.
  unfold saveApiKey at 2 3.
  destruct (truthy (trim (tempKey w))) eqn:Ht.
  - unfold saveApiKey. cbn [tempKey setShowKeyModal setApiKey
                             localStorage_setItem].
    rewrite Ht. unfold setShowKeyModal, setApiKey, localStorage_setItem.
    cbn. rewrite setItem_twice. reflexivity.
  - unfold saveApiKey. rewrite Ht. reflexivity.
Qed.

(** X1: a key saved from a draft that is not blank is the key of the next
    start: mounting on the local storage left by [saveApiKey] sets the
    API key to the trimmed draft, whatever the build-time key is. *)
Theorem saved_key_survives_reload (w : World) (envKey : option jsstring) :
  ~ whitespace_only (tempKey w) ->
  apiKey (initializeKey envKey (initialWorld (localStorage (saveApiKey w))))
    = trim (tempKey w) /\
  apiKey (saveApiKey w) = trim (tempKey w).
Proof.
  intros Hw.
  assert (Ht : trim (tempKey w) <> []).
  { intros H. apply Hw. apply trim_whitespace. exact H. }
  rewrite (saveApiKey_stores w Ht).
  unfold setShowKeyModal, setApiKey, localStorage_setItem.
  cbn [localStorage apiKey]. split; [|reflexivity].
  unfold initializeKey. cbn [localStorage initialWorld].
  rewrite getItem_setItem. apply truthy_true in Ht. rewrite Ht.
  reflexivity.
Qed.

Lemma abc_not_blank : ~ whitespace_only (lit "  abc  ").
Proof.
  intros H. specialize (H 97). cbv in H.
  assert (Hf : false = true) by (apply H; auto 10). discriminate Hf.
Qed.

Lemma saved_key_survives_reload_witness :
  ~ whitespace_only (tempKey (world typed_key)) /\
  apiKey (initializeKey (Some (lit "build-time-key"))
            (initialWorld (localStorage (saveApiKey (world typed_key)))))
    = lit "abc".
Proof.
  split; [exact abc_not_blank|].
  exact (proj1 (saved_key_survives_reload (world typed_key)
                  (Some (lit "build-time-key")) abc_not_blank)).
Defined.

Lemma keyless_scan_opens_modal (env : oracle) (w : World)
    (input : ScanInput) :
  apiKey w = [] -> final (scan env w input) = setShowKeyModal true w.
Proof. intros Hkey. unfold scan, handleScan. rewrite Hkey. reflexivity. Qed.

(** X3: where a dismissed draft goes.  Reopening the key modal with the
    key button refills the draft from the current key, so saving then gives
    the same world as if the draft had never been typed, the key being the
    current key without surrounding white space (the current key itself
    when that is blank).  Reopening the modal by submitting a scan without
    a key does not refill it: the dismissed draft is still in the input,
    and saving then stores it, trimmed, as the key. *)
Theorem dismissed_draft_on_reopening (unicode_upper : N -> list N)
    (env : oracle) (input : ScanInput) (draft : jsstring) (w : World) :
  let dismissed :=
    handle unicode_upper DismissKeyModal
      (handle unicode_upper (ChangeTempKey draft) w) in
  let by_button := handle unicode_upper ClickKeyButton in
  let by_scan w0 := final (scan env w0 input) in
  (saveApiKey (by_button dismissed) = saveApiKey (by_button w) /\
   apiKey (saveApiKey (by_button w))
   = (if truthy (trim (apiKey w)) then trim (apiKey w) else apiKey w)) /\
  (apiKey w = [] ->
   showKeyModal (by_scan dismissed) = true /\
   tempKey (by_scan dismissed) = draft /\
   (~ whitespace_only draft ->
    apiKey (saveApiKey (by_scan dismissed)) = trim draft /\
    getItem (localStorage (saveApiKey (by_scan dismissed))) GEMINI_API_KEY
    = Some (trim draft))).
Proof.
  intros dismissed by_button by_scan. subst dismissed by_button by_scan.
  cbn [handle]. split; [split|].
  - reflexivity.
  - unfold saveApiKey. cbn [tempKey setShowKeyModal setTempKey].
    destruct (truthy (trim (apiKey w))); reflexivity.
  - intros Hkey. rewrite keyless_scan_opens_modal by exact Hkey.
    split; [reflexivity|]. split; [reflexivity|].
    intros Hdraft.
    assert (Ht : trim draft <> []).
    { intros H. apply Hdraft. apply trim_whitespace. exact H. }
    rewrite saveApiKey_stores by exact Ht.
    unfold setShowKeyModal, setApiKey, localStorage_setItem.
    cbn [localStorage apiKey tempKey setTempKey].
    rewrite getItem_setItem. auto.
Qed.

Lemma junk_draft_not_blank : ~ whitespace_only (lit "junk-draft").
Proof.
  intros H. specialize (H 106). cbv in H.
  assert (Hf : false = true) by (apply H; auto 10). discriminate Hf.
Qed.

Lemma dismissed_draft_on_reopening_witness :
  apiKey (initialWorld []) = [] /\
  ~ whitespace_only (lit "junk-draft") /\
  apiKey
    (saveApiKey
       (final (scan helpful_services
                 (handle sample_upper DismissKeyModal
                    (handle sample_upper (ChangeTempKey (lit "junk-draft"))
                       (initialWorld [])))
                 rudolph)))
  = lit "junk-draft".
Proof.
  destruct (dismissed_draft_on_reopening sample_upper helpful_services rudolph
              (lit "junk-draft") (initialWorld [])) as (_ & Hscan).
  destruct (Hscan eq_refl) as (_ & _ & Hsave).
  split; [reflexivity|]. split; [exact junk_draft_not_blank|].
  exact (proj1 (Hsave junk_draft_not_blank)).
Defined.

(** *** The export modal *)

Lemma letters_upper (unicode_upper : N -> list N) (s word : jsstring) :
  Forall (fun l => l = 72 \/ l = 79) word ->
  equals_ignoring_case s word = true ->
  toUpperCase unicode_upper s = word.
Proof.
  revert word. induction s as [|c s IH]; intros [|l word] Hword; simpl;
    try discriminate; [reflexivity|].
  intros H. apply andb_true_iff in H. destruct H as [Hc Hs].
  inversion Hword as [|? ? Hl Hrest]; subst.
  fold (toUpperCase unicode_upper s). rewrite (IH word Hrest Hs).
  assert (Hascii : c < 128).
  { unfold same_letter in Hc.
    rewrite orb_true_iff, !andb_true_iff, !N.eqb_eq in Hc. lia. }
  rewrite (proj2 (same_letter_upper unicode_upper c l Hascii Hl) Hc).
  reflexivity.
Qed.

(** X15: typing a password that is HOHOHO up to letter case and
    clicking Unlock always downloads once, closes the modal and leaves the
    error flag down, whatever the state before (earlier failures
    included) and whatever the Unicode tables of the runtime. *)
Theorem right_password_always_unlocks (unicode_upper : N -> list N)
    (w : World) (typed : jsstring) :
  equals_ignoring_case typed (lit "HOHOHO") = true ->
  let w' := handle unicode_upper ClickUnlock
              (handle unicode_upper (ChangeExportPassword typed) w) in
  downloadRepo_calls w' = S (downloadRepo_calls w) /\
  showExportModal w' = false /\
  passwordError w' = false.
Proof.
  intros Htyped. cbn [handle]. unfold handleUnlockSleigh.
  cbn [exportPassword setPasswordError setExportPassword].
  rewrite (letters_upper unicode_upper typed (lit "HOHOHO")).
  - cbn. auto.
  - cbv. repeat (apply Forall_cons; [auto|]). apply Forall_nil.
  - exact Htyped.
Qed.

Lemma right_password_always_unlocks_witness :
  equals_ignoring_case (lit "HoHoHo") (lit "HOHOHO") = true /\
  downloadRepo_calls
    (handle sample_upper ClickUnlock
       (handle sample_upper (ChangeExportPassword (lit "HoHoHo"))
          (world refused)))
    = S (downloadRepo_calls (world refused)) /\
  passwordError
    (handle sample_upper ClickUnlock
       (handle sample_upper (ChangeExportPassword (lit "HoHoHo"))
          (world refused))) = false.
Proof.
  destruct (right_password_always_unlocks sample_upper (world refused)
              (lit "HoHoHo") eq_refl) as (Hd & _ & He).
  split; [reflexivity|]. split; [exact Hd | exact He].
Defined.

(** *** The calls of a scan *)

(** X6: a scan with a key makes at most three service calls, none of
    them twice (no retry), and every call that takes a key is given the
    key of the handler, whatever the world it runs in. *)
Theorem scan_calls_once (key : jsstring) (input : ScanInput)
    (env : oracle) (w : World) :
  key <> [] ->
  let made := calls (log (run (handleScan key input) env w)) in
  (List.length made <= 3)%nat /\
  NoDup made /\
  (forall c k, In c made -> key_of c = Some k -> k = key).
Proof.
  intros Hk made. subst made. apply truthy_true in Hk.
  unfold handleScan. rewrite Hk. cbn [negb].
  by_source input; cbn;
    repeat match goal with
           | |- context [env ?c] => destruct (env c); cbn
           | |- context [read_message ?e] => destruct e; cbn
           end.
  all: split; [lia|]; split.
  all: try (repeat constructor; cbn; intuition discriminate).
  all: intros c k Hin Hkey;
    repeat (destruct Hin as [Hin|Hin]; [subst c; cbn in Hkey; congruence|]);
    contradiction.
Qed.

Lemma scan_calls_once_witness :
  lit "AIzaSy-test" <> [] /\
  NoDup (calls (log (run (handleScan (lit "AIzaSy-test") rudolph)
                       helpful_services (initialWorld [])))).
Proof.
  assert (Hk : lit "AIzaSy-test" <> []) by discriminate.
  split; [exact Hk|].
  exact (proj1 (proj2 (scan_calls_once (lit "AIzaSy-test") rudolph
                         helpful_services (initialWorld []) Hk))).
Defined.

(** *** Mounting twice *)

(** X4: the mount effect is idempotent: running it twice gives the world
    of running it once. *)
Theorem initializeKey_twice (envKey : option jsstring) (w : World) :
  initializeKey envKey (initializeKey envKey w) = initializeKey envKey w.
Proof.
  unfold initializeKey at 2 3.
  destruct (getItem (localStorage w) GEMINI_API_KEY) as [[|c k]|] eqn:Hs;
    destruct envKey as [[|c' k']|]; cbn [truthy];
    unfold initializeKey; cbn [localStorage setApiKey]; rewrite Hs;
    reflexivity.
Qed.
